(** * fuzzygrep: the indexing and retrieval core of [fuzzygrep.py]

    A shallow embedding of the class [FuzzyJSONSearcher] (key flattening,
    value flattening, the value-to-keys index, the key filter, the path
    resolver and the ranked search) together with the properties of the
    specification that concern them. *)

From Stdlib Require Import ZArith QArith String Ascii List DecimalString.
From stdpp Require Import gmap strings list fin_maps sorting.

Local Open Scope string_scope.
Local Open Scope list_scope.

(** ** Documents

    [json.load] produces [None], [bool], [int], [float], [str], [list] and
    [dict] objects.  The first five are the scalars; a float is carried by
    its [repr] (the text [str] prints for it), since nothing below computes
    with floats.  A [dict] is kept as the list of its items in insertion
    order, which is the order [dict.items()] walks them in; the keys of a
    Python dict are pairwise distinct. *)

Inductive scalar : Type :=
| SNone
| SBool (b : bool)
| SInt (n : Z)
| SFloat (repr : string)
| SStr (s : string).

Unset Elimination Schemes.
Inductive json : Type :=
| JScalar (s : scalar)
| JList (items : list json)
| JDict (items : list (string * json)).
Set Elimination Schemes.

(** Structural induction that also reaches the elements of lists and the
    values of dicts. *)
Definition json_induction (P : json -> Prop)
  (Hs : forall s, P (JScalar s))
  (Hl : forall items, Forall P items -> P (JList items))
  (Hd : forall items, Forall (fun kv => P (snd kv)) items -> P (JDict items)) :
  forall d, P d :=
  fix rec (d : json) : P d :=
    match d with
    | JScalar s => Hs s
    | JList items =>
        Hl items
          ((fix elems (l : list json) : Forall P l :=
              match l with
              | [] => List.Forall_nil P
              | x :: l' => @List.Forall_cons _ P x l' (rec x) (elems l')
              end) items)
    | JDict items =>
        Hd items
          ((fix entries (l : list (string * json)) :
              Forall (fun kv => P (snd kv)) l :=
              match l with
              | [] => List.Forall_nil _
              | kv :: l' =>
                  @List.Forall_cons _ (fun kv => P (snd kv)) kv l'
                    (rec (snd kv)) (entries l')
              end) items)
    end.

(** [str(v)] on a scalar. *)
Definition py_str (v : scalar) : string :=
  match v with
  | SNone => "None"
  | SBool true => "True"
  | SBool false => "False"
  | SInt n => NilZero.string_of_int (Z.to_int n)
  | SFloat repr => repr
  | SStr s => s
  end.

(** Truth value of an object, as tested by [if self.data:]. *)
Definition py_truthy (v : json) : bool :=
  match v with
  | JScalar SNone => false
  | JScalar (SBool b) => b
  | JScalar (SInt n) => negb (n =? 0)%Z
  | JScalar (SFloat repr) =>
      negb (String.eqb repr "0.0" || String.eqb repr "-0.0")
  | JScalar (SStr s) => negb (String.eqb s "")
  | JList items => match items with [] => false | _ => true end
  | JDict items => match items with [] => false | _ => true end
  end.

(** ** Strings *)

(** [pattern in key]: containment of [pattern] in [key] at some offset. *)
Fixpoint py_in (pattern key : string) : bool :=
  if String.prefix pattern key then true
  else match key with
       | EmptyString => false
       | String _ key' => py_in pattern key'
       end.

(** [path.split('.')], with the segment being read as accumulator. *)
Fixpoint split_on (sep : ascii) (cur s : string) : list string :=
  match s with
  | EmptyString => [cur]
  | String c s' =>
      if Ascii.eqb c sep then cur :: split_on sep "" s'
      else split_on sep (cur ++ String c "") s'
  end.

Definition split_dot (path : string) : list string := split_on "."%char "" path.

(** [f"{prefix}.{k}" if prefix else k] *)
Definition full_key (prefix k : string) : string :=
  match prefix with
  | EmptyString => k
  | _ => prefix ++ "." ++ k
  end.

(** [sorted(list(keys))] for a set of strings; [sorted] orders strings
    character by character. *)
Definition sorted_elements (keys : gset string) : list string :=
  merge_sort String.le (elements keys).

(** [sorted(list(set(xs)))] *)
Definition sorted_set (xs : list string) : list string :=
  sorted_elements (list_to_set xs).

(** ** Flattener *)

Fixpoint _extract_json_keys (data : json) (prefix : string) : list string :=
  match data with
  | JDict items =>
      flat_map (fun kv : string * json =>
                  let full := full_key prefix (fst kv) in
                  full :: _extract_json_keys (snd kv) full) items
  | JList items =>
      flat_map (fun item => _extract_json_keys item prefix) items
  | JScalar _ => []
  end.

Fixpoint _extract_json_values (data : json) : list string :=
  match data with
  | JDict items =>
      flat_map (fun kv : string * json =>
                  match snd kv with
                  | JScalar s => [py_str s]
                  | _ => _extract_json_values (snd kv)
                  end) items
  | JList items => flat_map _extract_json_values items
  | JScalar _ => []
  end.

(** ** Path resolver *)

(** [value[key]] on a dict; [None] stands for [KeyError]. *)
Fixpoint dict_get (items : list (string * json)) (key : string) : option json :=
  match items with
  | [] => None
  | (k, v) :: rest => if String.eqb k key then Some v else dict_get rest key
  end.

(** The loop [for key in keys] of [_get_values_by_path]. *)
Fixpoint walk_keys (value : json) (keys : list string) : list json :=
  match keys with
  | [] => [value]
  | key :: rest =>
      match value with
      | JDict items =>
          match dict_get items key with
          | Some v => walk_keys v rest
          | None => []
          end
      | JList _ => []
      | JScalar _ => []
      end
  end.

Fixpoint _get_values_by_path (data : json) (path : string) : list json :=
  match data with
  | JList items => flat_map (fun item => _get_values_by_path item path) items
  | _ => walk_keys data (split_dot path)
  end.

(** [sep.join(l)] *)
Fixpoint join (sep : string) (l : list string) : string :=
  match l with
  | [] => ""
  | [x] => x
  | x :: rest => x ++ sep ++ join sep rest
  end.

(** The walk that the specification describes for the resolver below the
    root: one map lookup for each segment, from [value]; there is no value
    to reach when a key is missing or a segment is left at something that
    is not a map. *)
Fixpoint descend (value : json) (names : list string) : option json :=
  match names with
  | [] => Some value
  | name :: rest =>
      match value with
      | JDict items =>
          match dict_get items name with
          | Some v => descend v rest
          | None => None
          end
      | _ => None
      end
  end.

(** ** Reverse indexer

    [value_to_keys] is a dict from the stringified scalar to a [set] of
    key-paths; the function returns it with every set turned into a sorted
    list. *)

(** [if val not in value_to_keys: value_to_keys[val] = set()] followed by
    [value_to_keys[val].add(key)] *)
Definition add_key (val key : string)
  (value_to_keys : gmap string (gset string)) : gmap string (gset string) :=
  <[val := default ∅ (value_to_keys !! val) ∪ {[key]}]> value_to_keys.

(** ... followed by [value_to_keys[val].update(keys)] *)
Definition update_keys (val : string) (keys : list string)
  (value_to_keys : gmap string (gset string)) : gmap string (gset string) :=
  <[val := default ∅ (value_to_keys !! val) ∪ list_to_set keys]> value_to_keys.

(** [for val, keys in nested_map.items(): ...] *)
Definition merge_nested (nested_map : gmap string (list string))
  (value_to_keys : gmap string (gset string)) : gmap string (gset string) :=
  map_fold update_keys value_to_keys nested_map.

(** [{val: sorted(list(keys)) for val, keys in value_to_keys.items()}] *)
Definition sorted_index (value_to_keys : gmap string (gset string)) :
  gmap string (list string) :=
  sorted_elements <$> value_to_keys.

Fixpoint _build_value_to_key_map (data : json) (prefix : string) :
  gmap string (list string) :=
  match data with
  | JDict items =>
      sorted_index
        (fold_left
           (fun value_to_keys (kv : string * json) =>
              let full := full_key prefix (fst kv) in
              match snd kv with
              | JScalar v => add_key (py_str v) full value_to_keys
              | _ =>
                  merge_nested (_build_value_to_key_map (snd kv) full)
                    value_to_keys
              end) items ∅)
  | JList items =>
      sorted_index
        (fold_left
           (fun value_to_keys item =>
              merge_nested (_build_value_to_key_map item prefix)
                value_to_keys) items ∅)
  | JScalar _ => ∅
  end.

(** ** The searcher object

    Attributes that [__init__] does not assign exist only once some method
    has assigned them: they are optional here, and reading one that is
    still missing raises [AttributeError]. *)

(** The exceptions that leave the modelled code: a missing attribute, a
    comparison or containment test on [None], and an exception of some
    other class that a loader does not catch. *)
Inductive exn : Type :=
| AttributeError (name : string)
| TypeError
| Uncaught (exception : string).

Record FuzzyJSONSearcher : Type := mkSearcher {
  data : json;
  unique_keys : list string;
  _allowed_keys_filter : list string;
  _all_keys : option (list string);
  _all_values : option (list string);
  unique_values : option (list string);
  value_to_keys_map : option (gmap string (list string))
}.

Definition set_data (v : json) (self : FuzzyJSONSearcher) :=
  mkSearcher v (unique_keys self) (_allowed_keys_filter self) (_all_keys self)
    (_all_values self) (unique_values self) (value_to_keys_map self).

Definition set_unique_keys (v : list string) (self : FuzzyJSONSearcher) :=
  mkSearcher (data self) v (_allowed_keys_filter self) (_all_keys self)
    (_all_values self) (unique_values self) (value_to_keys_map self).

Definition set_allowed_keys_filter (v : list string) (self : FuzzyJSONSearcher) :=
  mkSearcher (data self) (unique_keys self) v (_all_keys self)
    (_all_values self) (unique_values self) (value_to_keys_map self).

Definition set_all_keys (v : list string) (self : FuzzyJSONSearcher) :=
  mkSearcher (data self) (unique_keys self) (_allowed_keys_filter self) (Some v)
    (_all_values self) (unique_values self) (value_to_keys_map self).

Definition set_all_values (v : list string) (self : FuzzyJSONSearcher) :=
  mkSearcher (data self) (unique_keys self) (_allowed_keys_filter self)
    (_all_keys self) (Some v) (unique_values self) (value_to_keys_map self).

Definition set_unique_values (v : list string) (self : FuzzyJSONSearcher) :=
  mkSearcher (data self) (unique_keys self) (_allowed_keys_filter self)
    (_all_keys self) (_all_values self) (Some v) (value_to_keys_map self).

Definition set_value_to_keys_map (v : gmap string (list string))
  (self : FuzzyJSONSearcher) :=
  mkSearcher (data self) (unique_keys self) (_allowed_keys_filter self)
    (_all_keys self) (_all_values self) (unique_values self) (Some v).

(** A method runs on the object, may assign attributes, and either returns
    or raises; what it assigned before raising stays assigned. *)
Inductive outcome (A : Type) : Type :=
| Return (a : A)
| Raise (e : exn).
Arguments Return {A} a.
Arguments Raise {A} e.

Definition method (A : Type) : Type :=
  FuzzyJSONSearcher -> FuzzyJSONSearcher * outcome A.

Definition ret {A} (a : A) : method A := fun self => (self, Return a).

Definition bind {A B} (m : method A) (k : A -> method B) : method B :=
  fun self =>
    match m self with
    | (self', Return a) => k a self'
    | (self', Raise e) => (self', Raise e)
    end.

Definition read {A} (attr : FuzzyJSONSearcher -> A) : method A :=
  fun self => (self, Return (attr self)).

Definition getattr {A} (name : string) (attr : FuzzyJSONSearcher -> option A) :
  method A :=
  fun self =>
    match attr self with
    | Some a => (self, Return a)
    | None => (self, Raise (AttributeError name))
    end.

Definition assign (setter : FuzzyJSONSearcher -> FuzzyJSONSearcher) : method unit :=
  fun self => (setter self, Return tt).

(** The outcome of a call that does not touch the object. *)
Definition lift {A} (o : outcome A) : method A := fun self => (self, o).

Declare Scope method_scope.
Delimit Scope method_scope with method.
Notation "x <- m ;; k" := (bind m (fun x => k))
  (at level 100, m at next level, right associativity) : method_scope.
Notation "m ;; k" := (bind m (fun _ => k))
  (at level 100, right associativity) : method_scope.

(** ** Key filter *)

(** The loop over [self._all_keys] with its inner loop over the patterns:
    a key is appended once, at the first pattern it contains. *)
Definition filter_keys (patterns all_keys : list string) : list string :=
  List.filter (fun key => existsb (fun pattern => py_in pattern key) patterns)
    all_keys.

(** The loop that rebuilds the index: every entry keeps the keys that are
    in [unique_keys]; an entry left without keys is not stored. *)
Definition filter_index (unique_keys : list string)
  (index : gmap string (list string)) : gmap string (list string) :=
  omap (fun keys =>
          match List.filter (fun k => bool_decide (k ∈ unique_keys)) keys with
          | [] => None
          | filtered_associated_keys => Some filtered_associated_keys
          end) index.

Definition _apply_key_filter : method unit :=
  (patterns <- read _allowed_keys_filter;;
   match patterns with
   | [] =>
       all_keys <- getattr "_all_keys" _all_keys;;
       assign (set_unique_keys (sorted_set all_keys));;
       all_values <- getattr "_all_values" _all_values;;
       assign (set_unique_values (sorted_set all_values));;
       d <- read data;;
       assign (set_value_to_keys_map (_build_value_to_key_map d ""))
   | _ =>
       all_keys <- getattr "_all_keys" _all_keys;;
       assign (set_unique_keys (sorted_set (filter_keys patterns all_keys)));;
       d <- read data;;
       retained <- read unique_keys;;
       let filtered_value_to_keys_map :=
         filter_index retained (_build_value_to_key_map d "") in
       assign (set_value_to_keys_map filtered_value_to_keys_map);;
       assign (set_unique_values
                 (sorted_elements (dom filtered_value_to_keys_map)))
   end)%method.

(** ** Loading *)

(** A CSV record as [csv.DictReader] yields it: a dict with one entry for
    every field name of the header, holding the text of the field or [None]
    when the row is too short to have it, and, when the row is longer than
    the header, one more entry under the key [None] that holds the list of
    the surplus fields.  The header is taken to name at least one field, so
    that a record has a first field; a file whose first line is blank gives
    records without field names and is not covered.  The field names of a
    record are distinct, as the keys of a dict are. *)
Record csv_record : Type := mkRecord {
  first_field : string * option string;
  more_fields : list (string * option string);
  restkey : option (list string)
}.

Definition record_fields (r : csv_record) : list (string * option string) :=
  first_field r :: more_fields r.

Definition field_value (v : option string) : json :=
  match v with
  | Some s => JScalar (SStr s)
  | None => JScalar SNone
  end.

(** [str(v)] of the value of a field. *)
Definition field_str (v : option string) : string :=
  match v with
  | Some s => s
  | None => "None"
  end.

(** The record as the traversals see it.  The entry under [None] is left
    out: [value[key]] with a segment of a path never selects it, and the
    indexer, given its list of strings, records nothing. *)
Definition record_to_json (r : csv_record) : json :=
  JDict (map (fun kv : string * option string =>
                (fst kv, field_value (snd kv))) (record_fields r)).

(** What reading the file gives: the parsed content, or the exception that
    opening, reading or parsing raised: [FileNotFoundError], the parser's
    own error ([json.JSONDecodeError] for JSON), or an exception of another
    class, such as [PermissionError] or [UnicodeDecodeError]. *)
Inductive read_result (A : Type) : Type :=
| Parsed (a : A)
| FileNotFound
| Unparsable
| ReadError (exception : string).
Arguments Parsed {A} a.
Arguments FileNotFound {A}.
Arguments Unparsable {A}.
Arguments ReadError {A} exception.

(** A path with what the two loaders find there; [suffix] is
    [file_path.suffix.lower()]. *)
Record Path : Type := mkPath {
  suffix : string;
  json_text : read_result json;
  csv_text : read_result (list csv_record)
}.

(** [_load_json] catches [FileNotFoundError] and [json.JSONDecodeError],
    logs, and returns [None]; any other exception leaves it. *)
Definition _load_json (file_path : Path) : outcome json :=
  match json_text file_path with
  | Parsed d => Return d
  | FileNotFound => Return (JScalar SNone)
  | Unparsable => Return (JScalar SNone)
  | ReadError exception => Raise (Uncaught exception)
  end.

(** [_load_csv] catches [FileNotFoundError] and then every [Exception],
    logs, and returns [None]. *)
Definition _load_csv (file_path : Path) : option (list csv_record) :=
  match csv_text file_path with
  | Parsed rows => Some rows
  | _ => None
  end.

Definition csv_data (rows : option (list csv_record)) : json :=
  match rows with
  | Some rs => JList (map record_to_json rs)
  | None => JScalar SNone
  end.

(** [_load_data].  For a CSV source the keys are those of the first record.
    When that record has the entry under [None], the key list holds [None]
    beside the field names and [sorted] in [_apply_key_filter], which runs
    with the empty pattern list here, raises [TypeError] on comparing them;
    the key list itself, which the constructor then never hands out, is not
    kept. *)
Definition _load_data (file_path : Path) : method unit :=
  (let ext := suffix file_path in
   (if String.eqb ext ".json" then
      loaded_data <- lift (_load_json file_path);;
      assign (set_data loaded_data);;
      d <- read data;;
      if py_truthy d then
        assign (set_all_keys (_extract_json_keys d ""));;
        assign (set_all_values (_extract_json_values d))
      else ret tt
    else if String.eqb ext ".csv" then
      let rows := _load_csv file_path in
      assign (set_data (csv_data rows));;
      match rows with
      | Some (first :: _) =>
          match restkey first with
          | None =>
              assign (set_all_keys (map fst (record_fields first)));;
              assign (set_all_values [])
          | Some _ =>
              assign (set_all_values []);;
              lift (Raise TypeError)
          end
      | _ => ret tt
      end
    else ret tt);;
   _apply_key_filter)%method.

(** [FuzzyJSONSearcher(file_path)]: the attributes [__init__] assigns, then
    [_load_data]. *)
Definition __init__ (file_path : Path) : FuzzyJSONSearcher * outcome unit :=
  _load_data file_path
    {| data := JScalar SNone; unique_keys := [];
       _allowed_keys_filter := []; _all_keys := None; _all_values := None;
       unique_values := None; value_to_keys_map := None |}.

(** The [/only] command of the session loop: it assigns the pattern list
    (empty to clear the filter) and recomputes. *)
Definition only (patterns : list string) : method unit :=
  (assign (set_allowed_keys_filter patterns);; _apply_key_filter)%method.

Definition json_file (d : json) : Path := mkPath ".json" (Parsed d) Unparsable.
Definition csv_file (rows : list csv_record) : Path :=
  mkPath ".csv" Unparsable (Parsed rows).

(** ** Length of a text

    Strings stand for Python text in its UTF-8 encoding; [len] counts the
    characters, which are the bytes that do not continue a character. *)

Definition starts_char (c : ascii) : bool :=
  match c with
  | Ascii _ _ _ _ _ _ b6 b7 => negb (b7 && negb b6)
  end.

Fixpoint py_len (s : string) : nat :=
  match s with
  | EmptyString => 0
  | String c s' => (if starts_char c then 1 else 0) + py_len s'
  end.

(** ** Fuzzy ranker

    [fuzzy_search] and [get_completions] hand the query and the current
    universe to [process.extract] with the scorer [fuzz.WRatio]; both are
    functions of the rapidfuzz package. *)

Section Ranker.

(** The combined sub-metrics of the weighted ratio on two non-empty
    strings, a number between 0 and 100. *)
Variable similarity : string -> string -> Q.

(** Modelled from the spec: [fuzz.WRatio] of rapidfuzz, which is not in
    the repository.  The weighted ratio of an empty string with anything
    is 0; otherwise it is the best of the sub-metrics. *)
Definition WRatio (s1 s2 : string) : Q :=
  if String.eqb s1 "" || String.eqb s2 "" then 0%Q else similarity s1 s2.

(** A match as [process.extract] reports it: candidate, score, position in
    the candidate sequence. *)
Definition match_ : Type := string * Q * nat.
Definition choice_of (m : match_) : string := fst (fst m).
Definition score_of (m : match_) : Q := snd (fst m).
Definition index_of (m : match_) : nat := snd m.

(** Modelled from the spec: the scoring pass of [process.extract], which
    pairs every candidate with its score and its position, counted from
    [i]. *)
Fixpoint score_all (query : string) (i : nat) (choices : list string) :
  list match_ :=
  match choices with
  | [] => []
  | c :: rest => (c, WRatio query c, i) :: score_all query (S i) rest
  end.

(** Modelled from the spec: the ordering of [process.extract], by
    descending score and stable.  [m], which comes before the matches
    already ranked, is put in front of the first one that does not beat
    it. *)
Fixpoint insert_match (m : match_) (ranked : list match_) : list match_ :=
  match ranked with
  | [] => [m]
  | m' :: rest =>
      if Qle_bool (score_of m') (score_of m) then m :: ranked
      else m' :: insert_match m rest
  end.

Definition rank_matches (ms : list match_) : list match_ :=
  fold_right insert_match [] ms.

(** Modelled from the spec: [process.extract(query, choices,
    scorer=fuzz.WRatio, limit=limit, score_cutoff=score_cutoff)] of
    rapidfuzz, which is not in the repository.  Candidates scoring at least
    the cut-off are eligible; at most [limit] of them are returned, by
    descending score, equal scores in the order of the candidate
    sequence. *)
Definition process_extract (query : string) (choices : list string)
  (limit : nat) (score_cutoff : Q) : list match_ :=
  firstn limit
    (rank_matches
       (List.filter (fun m => Qle_bool score_cutoff (score_of m))
          (score_all query 0 choices))).

(** The default of [limit] in
    [fuzzy_search(self, query, limit=10, search_type="keys")]. *)
Definition default_limit : nat := 10.

(** [fuzzy_search]: the candidates are the key universe for the search
    type ["keys"] and the value universe otherwise; the position is dropped
    from every match. *)
Definition fuzzy_search (query : string) (limit : nat) (search_type : string) :
  method (list (string * Q)) :=
  (candidates <- (if String.eqb search_type "keys"
                  then read unique_keys
                  else getattr "unique_values" unique_values);;
   let matches := process_extract query candidates limit 60 in
   ret (map (fun m => (choice_of m, score_of m)) matches))%method.

(** [FuzzyCompleter.get_completions]: the completions yielded for the text
    before the cursor, each replacing that text. *)
Record Completion : Type := mkCompletion {
  text : string;
  start_position : Z
}.

Definition get_completions (completion_type : string)
  (text_before_cursor : string) : method (list Completion) :=
  (if String.eqb text_before_cursor "" then ret []
   else
     candidates <- (if String.eqb completion_type "keys"
                    then read unique_keys
                    else getattr "unique_values" unique_values);;
     let matches := process_extract text_before_cursor candidates 5 60 in
     let cleaned := map (fun m => (choice_of m, score_of m)) matches in
     ret (map (fun ms : string * Q =>
                 mkCompletion (fst ms)
                   (- Z.of_nat (py_len text_before_cursor))) cleaned))%method.

End Ranker.


(** The order of the ranked matches: a higher score first, and among equal
    scores the candidate that comes first in the candidate sequence. *)
Definition beats (m m' : match_) : Prop :=
  (score_of m' < score_of m)%Q \/
  ((score_of m' == score_of m)%Q /\ (index_of m < index_of m')%nat).

Definition earlier (m m' : match_) : Prop := (index_of m < index_of m')%nat.

(** A scorer to run the ranker on: 100 when the query starts the
    candidate, 70 when it occurs further inside, 0 otherwise. *)
Definition sample_similarity (query candidate : string) : Q :=
  if String.prefix query candidate then 100%Q
  else if py_in query candidate then 70%Q else 0%Q.

(** A run of [/only] commands; an exception ends the session, since the
    loop only catches [KeyboardInterrupt] and [EOFError]. *)
Fixpoint only_session (commands : list (list string)) :
  FuzzyJSONSearcher -> FuzzyJSONSearcher * outcome unit :=
  fun self =>
    match commands with
    | [] => (self, Return tt)
    | patterns :: rest =>
        match only patterns self with
        | (self', Return _) => only_session rest self'
        | (self', Raise e) => (self', Raise e)
        end
    end.

(** What a successful load establishes: the two traversal results exist,
    and every key-path stored in the index of the document is among the
    traversed keys. *)
Definition loaded (self : FuzzyJSONSearcher) : Prop :=
  exists all_keys all_values,
    _all_keys self = Some all_keys /\
    _all_values self = Some all_values /\
    forall s ks k,
      _build_value_to_key_map (data self) "" !! s = Some ks ->
      k ∈ ks -> k ∈ all_keys.

(** ** Scalar leaves

    The (key-path, stringified scalar) pairs met by the traversal that the
    flattener and the reverse indexer share; the index is characterised
    below as the grouping of these pairs by scalar. *)

Fixpoint scalar_leaves (data : json) (prefix : string) : list (string * string) :=
  match data with
  | JDict items =>
      flat_map (fun kv : string * json =>
                  let full := full_key prefix (fst kv) in
                  match snd kv with
                  | JScalar v => [(full, py_str v)]
                  | _ => scalar_leaves (snd kv) full
                  end) items
  | JList items => flat_map (fun item => scalar_leaves item prefix) items
  | JScalar _ => []
  end.

(** A set-valued index holds exactly the pairs of [l]. *)
Definition groups (m : gmap string (gset string)) (l : list (string * string)) :
  Prop :=
  forall s,
    match m !! s with
    | Some K => (exists k, k ∈ K) /\ forall k, k ∈ K <-> (k, s) ∈ l
    | None => forall k, (k, s) ∉ l
    end.

(** The same for the list-valued index that is returned. *)
Definition indexes (m : gmap string (list string)) (l : list (string * string)) :
  Prop :=
  forall s,
    match m !! s with
    | Some ks => (exists k, k ∈ ks) /\ forall k, k ∈ ks <-> (k, s) ∈ l
    | None => forall k, (k, s) ∉ l
    end.

(** ** Sample documents *)

(** [{"user": {"name": "Alice", "tags": ["admin", "vip"]}}] *)
Definition doc_user : json :=
  JDict [("user",
          JDict [("name", JScalar (SStr "Alice"));
                 ("tags", JList [JScalar (SStr "admin"); JScalar (SStr "vip")])])].

(** [{"items": [{"id": 1}]}] *)
Definition doc_items : json :=
  JDict [("items", JList [JDict [("id", JScalar (SInt 1))]])].

(** ** Documents on which key-paths resolve

    The resolver splits a key-path at every dot and follows maps only, so
    the key-paths it can follow are those built from names that are not
    empty and hold no dot, through maps whose sequences hold no key. *)

(** A name that survives [full_key] followed by [split('.')]. *)
Definition plain_name (k : string) : bool :=
  negb (String.eqb k "") && negb (py_in "." k).

(** No dict entry at any depth. *)
Fixpoint keyless (d : json) : bool :=
  match d with
  | JScalar _ => true
  | JList items => forallb keyless items
  | JDict items => match items with [] => true | _ => false end
  end.

(** Below a map: names are plain and pairwise distinct, as the keys of a
    Python dict are, and sequences are keyless. *)
Fixpoint maps_only (d : json) : bool :=
  match d with
  | JScalar _ => true
  | JList items => forallb keyless items
  | JDict items =>
      bool_decide (NoDup (map fst items)) &&
      forallb (fun kv : string * json =>
                 plain_name (fst kv) && maps_only (snd kv)) items
  end.

(** At the root, sequences may be nested in sequences. *)
Fixpoint resolvable (d : json) : bool :=
  match d with
  | JList items => forallb resolvable items
  | _ => maps_only d
  end.

(** The dict entries met by the flattener, as (key-path, value) pairs in
    traversal order. *)
Fixpoint located (data : json) (prefix : string) : list (string * json) :=
  match data with
  | JDict items =>
      flat_map (fun kv : string * json =>
                  let full := full_key prefix (fst kv) in
                  (full, snd kv) :: located (snd kv) full) items
  | JList items => flat_map (fun item => located item prefix) items
  | JScalar _ => []
  end.

(** The segments of the prefix the traversal has reached. *)
Definition segments (prefix : string) (ps : list string) : Prop :=
  (prefix = "" /\ ps = []) \/ (prefix <> "" /\ split_dot prefix = ps).

(** A list in the order of [sorted], without repetition. *)
Definition ascending (l : list string) : Prop :=
  StronglySorted String.le l /\ NoDup l.

(** ** Rendering

    What the presentation code hands to the [rich] console: tables and
    trees.  A [Tree] has a label and the children added to it, in order. *)

Unset Elimination Schemes.
Inductive Tree : Type :=
| Node (label : string) (children : list Tree).
Set Elimination Schemes.

Definition label_of (t : Tree) : string :=
  match t with Node label _ => label end.

Definition children_of (t : Tree) : list Tree :=
  match t with Node _ children => children end.

(** [tree.add(label)] with the children that the rest of the call adds to
    the new node. *)
Definition add_child (child : Tree) (parent : Tree) : Tree :=
  match parent with
  | Node label children => Node label (children ++ [child])
  end.

(** [str(i)] for a count or an index. *)
Definition nat_str (n : nat) : string := NilZero.string_of_uint (Nat.to_uint n).

(** The loop [for i, item in enumerate(data[:5])] of [generate_rich_tree],
    with the index [i] and the number of items still to take; [render] is
    the recursive call. *)
Definition item_children (render : json -> string -> Tree) :
  nat -> nat -> list json -> list Tree :=
  fix first_items (i take : nat) (l : list json) : list Tree :=
    match take, l with
    | S take', item :: rest =>
        match item with
        | JScalar v => Node ("- [green]" ++ py_str v ++ "[/green]") []
        | _ => render item ("[" ++ nat_str i ++ "]")%string
        end :: first_items (S i) take' rest
    | _, _ => []
    end.

(** The node that [generate_rich_tree(data, parent_tree, name)] creates,
    once the call has filled it. *)
Fixpoint rich_tree (data : json) (name : string) : Tree :=
  Node name
    match data with
    | JDict items =>
        map (fun kv : string * json =>
               match snd kv with
               | JScalar v =>
                   Node (fst kv ++ ": [green]" ++ py_str v ++ "[/green]") []
               | _ => rich_tree (snd kv) (fst kv)
               end) items
    | JList items => item_children rich_tree 0 5 items
    | JScalar _ => []
    end.

(** [generate_rich_tree]: without a parent the new node is a root; with one
    it is added to the parent.  The result is the new node and the parent
    as the call leaves it. *)
Definition generate_rich_tree (data : json) (parent_tree : option Tree)
  (name : string) : Tree * option Tree :=
  let tree := rich_tree data name in
  match parent_tree with
  | None => (tree, None)
  | Some parent => (tree, Some (add_child tree parent))
  end.

(** A [rich] table: title, columns with their style, rows. *)
Record Table : Type := mkTable {
  title : string;
  columns : list (string * string);
  rows : list (list string)
}.

(** What [display_matches] emits, in order. *)
Inductive emitted : Type :=
| LogInfo (message : string)
| PrintTable (paged : bool) (table : Table)
| PrintTree (tree : Tree).

Definition is_composite (v : json) : bool :=
  match v with
  | JScalar _ => false
  | _ => true
  end.

Section Display.

(** [str(score)] of a score, which is a float. *)
Variable str_score : Q -> string.

(** The rows of a key match none of whose values is a composite: one per
    value. *)
Definition value_rows (m score : string) (values : list json) :
  list (list string) :=
  flat_map (fun value =>
              match value with
              | JScalar v => [[m; py_str v; score]]
              | _ => []
              end) values.

(** The tree printed for a key match with a composite among its values. *)
Definition nested_tree (m : string) (score : Q) (values : list json) : Tree :=
  fold_left
    (fun tree value =>
       match value with
       | JScalar v => add_child (Node (py_str v) []) tree
       | _ =>
           match snd (generate_rich_tree value (Some tree) m) with
           | Some tree' => tree'
           | None => tree
           end
       end) values
    (Node ("Values for '" ++ m ++ "' (Score: " ++ str_score score ++ ")") []).

(** One turn of the loop over the matches, on the rows of the table and the
    list of nested matches; [index] is [self.value_to_keys_map]. *)
Definition display_step (search_type : string) (d : json)
  (index : gmap string (list string))
  (acc : list (list string) * list (string * Q * list json))
  (found : string * Q) :
  list (list string) * list (string * Q * list json) :=
  let '(m, score) := found in
  let '(table_rows, nested_matches) := acc in
  if String.eqb search_type "keys" then
    let values := _get_values_by_path d m in
    match values with
    | [] => acc
    | _ =>
        if existsb is_composite values
        then (table_rows, nested_matches ++ [(m, score, values)])
        else (table_rows ++ value_rows m (str_score score) values,
              nested_matches)
    end
  else
    match default [] (index !! m) with
    | [] => acc
    | keys => (table_rows ++ [[m; join ", " keys; str_score score]],
               nested_matches)
    end.

Definition result_columns (search_type : string) : list (string * string) :=
  (if String.eqb search_type "keys"
   then [("Key", "cyan"); ("Value", "magenta")]
   else [("Value", "magenta"); ("Keys", "cyan")]) ++ [("Score", "green")].

(** [display_matches(matches, search_type)].  The index is read in the loop,
    for the first match of a search by values.  The result is what the
    method hands to the console, in order; how [rich] renders a table or a
    tree, and whether it accepts the markup of a cell, is not part of it. *)
Definition display_matches (matches : list (string * Q))
  (search_type : string) : method (list emitted) :=
  (match matches with
   | [] => ret [LogInfo "No matches found."]
   | _ =>
       d <- read data;;
       index <- (if String.eqb search_type "keys" then ret ∅
                 else getattr "value_to_keys_map" value_to_keys_map);;
       let '(table_rows, nested_matches) :=
         fold_left (display_step search_type d index) matches ([], []) in
       let table :=
         mkTable ("Fuzzy Search Results (" ++ nat_str (length matches)
                  ++ " total)")
           (result_columns search_type) table_rows in
       let printed_table :=
         match table_rows with
         | [] => []
         | _ => [PrintTable (Nat.ltb 20 (length matches)) table]
         end in
       let printed_trees :=
         if String.eqb search_type "keys"
         then map (fun n : string * Q * list json =>
                     PrintTree (nested_tree (fst (fst n)) (snd (fst n)) (snd n)))
                nested_matches
         else [] in
       ret (printed_table ++ printed_trees)
   end)%method.

End Display.

(** ** Completers of the prompt *)

Definition commands : list string := ["/exit"; "/load"; "/open"; "/only"].

(** [CommandCompleter.get_completions] *)
Definition command_completions (text_before_cursor : string) : list Completion :=
  if String.prefix "/" text_before_cursor then
    map (fun cmd =>
           mkCompletion cmd (- Z.of_nat (py_len text_before_cursor)))
      (List.filter (fun cmd => String.prefix text_before_cursor cmd) commands)
  else [].

(** [DynamicCompleter.get_completions]; the fuzzy completer carries the
    searcher and the completion type. *)
Definition dynamic_completions (similarity : string -> string -> Q)
  (completion_type text_before_cursor : string) : method (list Completion) :=
  if String.prefix "/" text_before_cursor
  then ret (command_completions text_before_cursor)
  else get_completions similarity completion_type text_before_cursor.

(** What one match adds to the table and to the nested matches. *)
Definition key_match_rows (str_score : Q -> string) (d : json)
  (found : string * Q) : list (list string) :=
  let values := _get_values_by_path d (fst found) in
  if existsb is_composite values then []
  else value_rows (fst found) (str_score (snd found)) values.

Definition key_match_nested (d : json) (found : string * Q) :
  list (string * Q * list json) :=
  let values := _get_values_by_path d (fst found) in
  if existsb is_composite values then [(fst found, snd found, values)] else [].

Definition value_match_rows (str_score : Q -> string)
  (index : gmap string (list string)) (found : string * Q) :
  list (list string) :=
  match default [] (index !! fst found) with
  | [] => []
  | keys => [[fst found; join ", " keys; str_score (snd found)]]
  end.

(** * Properties *)

(** ** Lists *)

Lemma elem_of_flat_map {A B : Type} (f : A -> list B) (l : list A) (y : B) :
  y ∈ flat_map f l <-> exists x, x ∈ l /\ y ∈ f x.
Proof.
  rewrite list_elem_of_In, in_flat_map.
  split; intros (x & Hx & Hy); exists x; by rewrite ?list_elem_of_In in *.
Qed.

(** ** Sorting and sets *)

Lemma elem_of_sorted_elements (K : gset string) (k : string) :
  k ∈ sorted_elements K <-> k ∈ K.
Proof.
  unfold sorted_elements.
  rewrite (merge_sort_Permutation String.le (elements K)).
  apply elem_of_elements.
Qed.

Lemma elem_of_sorted_set (xs : list string) (k : string) :
  k ∈ sorted_set xs <-> k ∈ xs.
Proof.
  unfold sorted_set. rewrite elem_of_sorted_elements.
  apply elem_of_list_to_set.
Qed.

Lemma list_to_set_sorted_elements (K : gset string) :
  list_to_set (sorted_elements K) = K.
Proof.
  apply set_eq. intros k.
  rewrite elem_of_list_to_set. apply elem_of_sorted_elements.
Qed.

(** ** The reverse index groups the scalar leaves *)

Lemma lookup_merge_nested (nested : gmap string (list string))
  (acc : gmap string (gset string)) (s : string) :
  merge_nested nested acc !! s =
    match nested !! s with
    | Some ks => Some (default ∅ (acc !! s) ∪ list_to_set ks)
    | None => acc !! s
    end.
Proof.
  unfold merge_nested.
  apply (map_fold_weak_ind
           (fun r m => r !! s =
                       match m !! s with
                       | Some ks => Some (default ∅ (acc !! s) ∪ list_to_set ks)
                       | None => acc !! s
                       end)).
  - by rewrite lookup_empty.
  - intros i x m r Hfresh IH. unfold update_keys.
    destruct (decide (i = s)) as [-> |Hne].
    + rewrite !lookup_insert_eq. rewrite Hfresh in IH. by rewrite IH.
    + by rewrite !lookup_insert_ne.
Qed.

Lemma groups_empty : groups ∅ [].
Proof. intros s. rewrite lookup_empty. intros k Hk. inversion Hk. Qed.

Lemma groups_add_key (m : gmap string (gset string)) l (s k : string) :
  groups m l -> groups (add_key s k m) (l ++ [(k, s)]).
Proof.
  intros Hm s'. unfold add_key. specialize (Hm s').
  destruct (decide (s = s')) as [-> |Hne].
  - rewrite lookup_insert_eq. split.
    { exists k. apply elem_of_union. right. by apply elem_of_singleton. }
    intros k'. rewrite elem_of_union, elem_of_singleton, elem_of_app,
      list_elem_of_singleton.
    destruct (m !! s') as [K|]; simpl.
    + destruct Hm as [_ Hm]. rewrite Hm.
      split; (intros [?|?]; [by left|right; congruence]).
    + split.
      * intros [Hin| ->]; [by apply not_elem_of_empty in Hin|by right].
      * intros [Hin|Heq]; [by apply Hm in Hin|right; congruence].
  - rewrite lookup_insert_ne by done.
    assert (Hsame : forall k', (k', s') ∈ l ++ [(k, s)] <-> (k', s') ∈ l).
    { intros k'. rewrite elem_of_app, list_elem_of_singleton.
      split; [intros [?|?]; [done|congruence]|by left]. }
    destruct (m !! s') as [K|].
    + destruct Hm as [Hne' Hm]. split; [done|]. intros k'.
      by rewrite Hsame.
    + intros k'. rewrite Hsame. apply Hm.
Qed.

Lemma groups_merge_nested (m : gmap string (gset string))
  (n : gmap string (list string)) l l' :
  groups m l -> indexes n l' -> groups (merge_nested n m) (l ++ l').
Proof.
  intros Hm Hn s. rewrite lookup_merge_nested.
  specialize (Hm s). specialize (Hn s).
  destruct (n !! s) as [ks|].
  - destruct Hn as [[k0 Hk0] Hn]. split.
    + exists k0. rewrite elem_of_union, elem_of_list_to_set. by right.
    + intros k. rewrite elem_of_union, elem_of_list_to_set, elem_of_app, Hn.
      destruct (m !! s) as [K|]; simpl.
      * destruct Hm as [_ Hm]. by rewrite Hm.
      * split.
        -- intros [Hin|Hin]; [by apply not_elem_of_empty in Hin|by right].
        -- intros [Hin|Hin]; [by apply Hm in Hin|by right].
  - assert (Hsame : forall k, (k, s) ∈ l ++ l' <-> (k, s) ∈ l).
    { intros k. rewrite elem_of_app.
      split; [intros [?|Hin]; [done|by apply Hn in Hin]|by left]. }
    destruct (m !! s) as [K|].
    + destruct Hm as [Hne Hm]. split; [done|]. intros k. by rewrite Hsame.
    + intros k. rewrite Hsame. apply Hm.
Qed.

Lemma indexes_sorted_index (m : gmap string (gset string)) l :
  groups m l -> indexes (sorted_index m) l.
Proof.
  intros Hm s. unfold sorted_index. rewrite lookup_fmap.
  specialize (Hm s). destruct (m !! s) as [K|]; simpl; [|done].
  destruct Hm as [[k Hk] Hm]. split.
  - exists k. by apply elem_of_sorted_elements.
  - intros k'. by rewrite elem_of_sorted_elements.
Qed.

Lemma groups_fold_left {A : Type}
  (f : gmap string (gset string) -> A -> gmap string (gset string))
  (g : A -> list (string * string)) (items : list A) :
  Forall (fun x => forall acc l0, groups acc l0 -> groups (f acc x) (l0 ++ g x))
    items ->
  forall acc l0, groups acc l0 ->
    groups (fold_left f items acc) (l0 ++ flat_map g items).
Proof.
  induction 1 as [|x items Hx _ IH]; intros acc l0 Hacc; simpl.
  - by rewrite app_nil_r.
  - rewrite app_assoc. apply IH. by apply Hx.
Qed.

Lemma index_groups_leaves (d : json) :
  forall prefix,
    indexes (_build_value_to_key_map d prefix) (scalar_leaves d prefix).
Proof.
  induction d as [v|items IH|items IH] using json_induction; intros prefix.
  - intros s. simpl. rewrite lookup_empty. intros k Hk. inversion Hk.
  - simpl. apply indexes_sorted_index.
    rewrite <- (app_nil_l (flat_map _ items)).
    apply groups_fold_left; [|apply groups_empty].
    eapply Forall_impl; [exact IH|].
    intros x Hx acc l0 Hacc. cbv beta.
    apply groups_merge_nested; [done|apply Hx].
  - simpl. apply indexes_sorted_index.
    rewrite <- (app_nil_l (flat_map _ items)).
    apply groups_fold_left; [|apply groups_empty].
    eapply Forall_impl; [exact IH|].
    intros [k v] Hx acc l0 Hacc. cbv beta zeta. simpl fst. simpl snd.
    simpl snd in Hx.
    destruct v as [sv|l|l]; cbv beta iota.
    + by apply groups_add_key.
    + apply groups_merge_nested; [done|apply Hx].
    + apply groups_merge_nested; [done|apply Hx].
Qed.

Lemma leaf_key_is_extracted (d : json) :
  forall prefix k s,
    (k, s) ∈ scalar_leaves d prefix -> k ∈ _extract_json_keys d prefix.
Proof.
  induction d as [v|items IH|items IH] using json_induction;
    intros prefix k s; simpl.
  - intros Hin. inversion Hin.
  - rewrite !elem_of_flat_map. intros (x & Hx & Hin). exists x. split; [done|].
    rewrite Forall_forall in IH. by eapply IH.
  - rewrite !elem_of_flat_map. intros ([key v] & Hx & Hin).
    exists (key, v). split; [done|]. simpl in *.
    rewrite Forall_forall in IH. specialize (IH _ Hx). simpl in IH.
    destruct v as [sv|l|l].
    + apply list_elem_of_singleton in Hin. inversion Hin. by left.
    + right. by eapply IH.
    + right. by eapply IH.
Qed.

Lemma leaf_values_are_extracted (d : json) :
  forall prefix, map snd (scalar_leaves d prefix) = _extract_json_values d.
Proof.
  induction d as [v|items IH|items IH] using json_induction;
    intros prefix; simpl.
  - done.
  - induction IH as [|x items Hx _ IHitems]; simpl; [done|].
    by rewrite map_app, Hx, IHitems.
  - induction IH as [|[key v] items Hx _ IHitems]; simpl; [done|].
    rewrite map_app, IHitems. f_equal. simpl in Hx.
    destruct v as [sv|l|l]; [done|apply Hx..].
Qed.

(** Every key-path stored in the index is one the flattener lists. *)
Lemma index_keys_are_extracted (d : json) (prefix s k : string)
  (ks : list string) :
  _build_value_to_key_map d prefix !! s = Some ks ->
  k ∈ ks -> k ∈ _extract_json_keys d prefix.
Proof.
  intros Hlook Hk. pose proof (index_groups_leaves d prefix s) as H.
  rewrite Hlook in H. destruct H as [_ H].
  apply (leaf_key_is_extracted d prefix k s). by apply H.
Qed.

(** No entry of the index is empty. *)
Lemma index_entries_nonempty (d : json) (prefix s : string) :
  _build_value_to_key_map d prefix !! s <> Some [].
Proof.
  intros Hlook. pose proof (index_groups_leaves d prefix s) as H.
  rewrite Hlook in H. destruct H as [[k Hk] _]. inversion Hk.
Qed.

(** The scalars that have an entry are the extracted values. *)
Lemma index_domain_is_values (d : json) (prefix s : string) :
  is_Some (_build_value_to_key_map d prefix !! s) <->
  s ∈ _extract_json_values d.
Proof.
  rewrite <- (leaf_values_are_extracted d prefix).
  pose proof (index_groups_leaves d prefix s) as H.
  rewrite list_elem_of_In, in_map_iff.
  destruct (_build_value_to_key_map d prefix !! s) as [ks|].
  - destruct H as [[k Hk] H]. split; [|by eauto]. intros _.
    exists (k, s). split; [done|]. apply list_elem_of_In. by apply H.
  - split; [by intros [? ?]|]. intros ([k s'] & Heq & Hin). simpl in Heq.
    subst s'. apply list_elem_of_In in Hin. by apply H in Hin.
Qed.

(** ** Strings *)

Lemma append_cons (c : ascii) (a b : string) :
  (String c a ++ b = String c (a ++ b))%string.
Proof. reflexivity. Qed.

Lemma append_nil_r (a : string) : (a ++ "" = a)%string.
Proof. induction a as [|c a IH]; [done|]. by rewrite append_cons, IH. Qed.

Lemma append_assoc (a b c : string) : ((a ++ b) ++ c = a ++ b ++ c)%string.
Proof.
  induction a as [|x a IH]; [done|]. by rewrite !append_cons, IH.
Qed.

Lemma prefix_nil (s : string) : String.prefix "" s = true.
Proof. by destruct s. Qed.

Lemma prefix_cons (a b : ascii) (s1 s2 : string) :
  String.prefix (String a s1) (String b s2) =
    if Ascii.eqb a b then String.prefix s1 s2 else false.
Proof.
  simpl. destruct (ascii_dec a b) as [->|Hne].
  - by rewrite Ascii.eqb_refl.
  - by apply Ascii.eqb_neq in Hne as ->.
Qed.

Lemma prefix_append (p k : string) :
  String.prefix p k = true <-> exists b, (k = p ++ b)%string.
Proof.
  revert k. induction p as [|a p IH]; intros k.
  - rewrite prefix_nil. split; [by exists k|done].
  - destruct k as [|c k].
    + split; [done|]. intros [b Hb]. by rewrite append_cons in Hb.
    + rewrite prefix_cons. destruct (Ascii.eqb_spec a c) as [->|Hne].
      * rewrite IH. split; intros [b Hb]; exists b.
        -- by rewrite append_cons, Hb.
        -- rewrite append_cons in Hb. by injection Hb.
      * split; [done|]. intros [b Hb]. rewrite append_cons in Hb.
        injection Hb as Hc _. by destruct Hne.
Qed.

Lemma py_in_unfold (pattern key : string) :
  py_in pattern key =
    if String.prefix pattern key then true
    else match key with
         | EmptyString => false
         | String _ key' => py_in pattern key'
         end.
Proof. by destruct key. Qed.

(** [pattern in key] holds exactly when [pattern] occurs in [key] as a
    contiguous run of characters, at any offset. *)
Lemma py_in_substring (pattern key : string) :
  py_in pattern key = true <-> exists a b, (key = a ++ pattern ++ b)%string.
Proof.
  split.
  - induction key as [|c key IH]; rewrite py_in_unfold;
      destruct (String.prefix _ _) eqn:Hp.
    + apply prefix_append in Hp as [b Hb]. intros _. by exists "", b.
    + done.
    + apply prefix_append in Hp as [b Hb]. intros _. by exists "", b.
    + intros (a & b & ->)%IH. by exists (String c a), b.
  - intros (a & b & ->). induction a as [|c a IH]; rewrite py_in_unfold.
    + assert (Hp : String.prefix pattern (pattern ++ b)%string = true)
        by (apply prefix_append; by exists b).
      change ("" ++ pattern ++ b)%string with (pattern ++ b)%string.
      by rewrite Hp.
    + rewrite append_cons, IH. by destruct (String.prefix _ _).
Qed.

Lemma split_on_no_sep (cur s : string) :
  py_in "." s = false -> split_on "." cur s = [(cur ++ s)%string].
Proof.
  revert cur. induction s as [|c s IH]; intros cur; rewrite py_in_unfold.
  - intros _. simpl. by rewrite append_nil_r.
  - rewrite prefix_cons, prefix_nil, (Ascii.eqb_sym "."%char c).
    cbn [split_on]. destruct (Ascii.eqb c ".") eqn:Hc; [done|].
    intros Hs. rewrite (IH _ Hs). by rewrite append_assoc.
Qed.

(** A path without dots is a single segment. *)
Lemma split_dot_single (key : string) :
  py_in "." key = false -> split_dot key = [key].
Proof. intros H. unfold split_dot. by rewrite split_on_no_sep. Qed.

Lemma split_on_sep (sep : ascii) (a b cur : string) :
  split_on sep cur (a ++ String sep b)%string =
    split_on sep cur a ++ split_on sep "" b.
Proof.
  revert cur. induction a as [|c a IH]; intros cur.
  - change ("" ++ String sep b)%string with (String sep b). simpl.
    by rewrite Ascii.eqb_refl.
  - rewrite append_cons. simpl. destruct (Ascii.eqb c sep).
    + by rewrite IH.
    + apply IH.
Qed.

Lemma split_on_nonempty (sep : ascii) (cur s : string) :
  split_on sep cur s <> [].
Proof.
  revert cur. induction s as [|c s IH]; intros cur; simpl; [done|].
  destruct (Ascii.eqb c sep); [done|apply IH].
Qed.

Lemma split_dot_join (names : list string) :
  names <> [] ->
  Forall (fun name => py_in "." name = false) names ->
  split_dot (join "." names) = names.
Proof.
  intros Hne Hplain. induction Hplain as [|n rest Hn Hrest IH]; [done|].
  destruct rest as [|m rest].
  - simpl. by apply split_dot_single.
  - change (join "." (n :: m :: rest))
      with (n ++ String "."%char (join "." (m :: rest)))%string.
    unfold split_dot. rewrite split_on_sep.
    rewrite (split_on_no_sep "" n Hn).
    change ("" ++ n)%string with n. simpl app. f_equal.
    by apply IH.
Qed.

Lemma walk_keys_descend (names : list string) :
  forall value v,
    descend value names = Some v -> walk_keys value names = [v].
Proof.
  induction names as [|name rest IH]; intros value v; simpl.
  - by intros [= ->].
  - destruct value as [s|items|items]; try done.
    destruct (dict_get items name) as [x|]; [apply IH|done].
Qed.

(** ** Path resolver and key universe *)

(** C1 (round trip between the key universe and the resolver).  The claim
    asks that every key-path of the key universe resolves to a non-empty
    sequence.  For the document [{"items": [{"id": 1}]}] the flattener,
    which walks through sequences at any depth, lists the key-path
    [items.id]; the resolver maps over a sequence only at the root, and on
    meeting the sequence under [items] with the segment [id] still to
    consume it gives up with an empty result. *)
Theorem key_below_sequence_resolves_to_nothing :
  unique_keys (fst (__init__ (json_file doc_items))) = ["items"; "items.id"] /\
  _get_values_by_path doc_items "items.id" = [].
Proof. split; vm_compute; reflexivity. Qed.

(** C3 (reverse-index consistency).  The claim asks that every key-path
    stored under a scalar resolves to results that include the scalar.  For
    [{"items": [{"id": 1}]}] the index stores [items.id] under ["1"], and
    resolving [items.id] yields nothing at all. *)
Theorem indexed_key_below_sequence_resolves_to_nothing :
  value_to_keys_map (fst (__init__ (json_file doc_items))) =
    Some {["1" := ["items.id"]]} /\
  _build_value_to_key_map doc_items "" !! "1" = Some ["items.id"] /\
  _get_values_by_path doc_items "items.id" = [].
Proof. repeat split; vm_compute; reflexivity. Qed.

(** C2, as stated, fails on the scenario of the specification: resolving
    [user.tags] does not return the flattened list of the two tags. *)
Lemma resolve_user_tags_not_flattened :
  _get_values_by_path doc_user "user.tags" <>
    [JScalar (SStr "admin"); JScalar (SStr "vip")].
Proof. vm_compute. discriminate. Qed.

(** C2 (sequence handling), amended.  A sequence at the document root is
    mapped over: the resolver is applied to every element with the same path
    and the results are concatenated, so that every element in which the
    path leads to a value contributes that value.  On a map, when following
    the segments of the path through maps, one lookup for each segment,
    reaches a value, that value is returned as the single result, also when
    it is itself a sequence; resolving [user.tags] in the scenario document
    returns the one-element list holding the list of tags. *)
Theorem resolver_sequence_handling :
  (forall items path,
      _get_values_by_path (JList items) path =
        flat_map (fun item => _get_values_by_path item path) items) /\
  (forall items names v,
      names <> [] ->
      Forall (fun name => py_in "." name = false) names ->
      descend (JDict items) names = Some v ->
      _get_values_by_path (JDict items) (join "." names) = [v]) /\
  (forall elements items names v,
      names <> [] ->
      Forall (fun name => py_in "." name = false) names ->
      JDict items ∈ elements ->
      descend (JDict items) names = Some v ->
      v ∈ _get_values_by_path (JList elements) (join "." names)) /\
  _get_values_by_path doc_user "user.tags" =
    [JList [JScalar (SStr "admin"); JScalar (SStr "vip")]].
Proof.
  assert (Hmap : forall items names v,
             names <> [] ->
             Forall (fun name => py_in "." name = false) names ->
             descend (JDict items) names = Some v ->
             _get_values_by_path (JDict items) (join "." names) = [v]).
  { intros items names v Hne Hplain Hv.
    change (_get_values_by_path (JDict items) (join "." names))
      with (walk_keys (JDict items) (split_dot (join "." names))).
    rewrite (split_dot_join names Hne Hplain).
    by apply walk_keys_descend. }
  split; [done|]. split; [exact Hmap|]. split; [|vm_compute; reflexivity].
  intros elements items names v Hne Hplain Hin Hv.
  change (_get_values_by_path (JList elements) (join "." names))
    with (flat_map (fun item => _get_values_by_path item (join "." names))
            elements).
  apply elem_of_flat_map. exists (JDict items). split; [done|].
  rewrite (Hmap items names v Hne Hplain Hv). by left.
Qed.

Lemma resolver_sequence_handling_witness :
  _get_values_by_path doc_user (join "." ["user"; "tags"]) =
    [JList [JScalar (SStr "admin"); JScalar (SStr "vip")]].
Proof.
  apply (proj1 (proj2 resolver_sequence_handling)
           [("user",
             JDict [("name", JScalar (SStr "Alice"));
                    ("tags", JList [JScalar (SStr "admin");
                                    JScalar (SStr "vip")])])]
           ["user"; "tags"]).
  - discriminate.
  - repeat constructor.
  - reflexivity.
Defined.

(** ** Loading *)

(** C4 (empty documents and failed loads).  The claim asks that loading an
    empty document gives empty universes without throwing, that a failed
    load can be told apart from it, and that an unsupported extension counts
    as no data.  In each of these cases [_load_data] skips the assignment of
    [_all_keys] and [_all_values], and the call of [_apply_key_filter] that
    ends it raises [AttributeError] on reading [self._all_keys]: for the
    empty JSON object, for a missing JSON file, for a file with another
    extension, and for a CSV file without records. *)
Theorem load_without_data_raises :
  snd (__init__ (json_file (JDict []))) = Raise (AttributeError "_all_keys") /\
  snd (__init__ (mkPath ".json" FileNotFound FileNotFound)) =
    Raise (AttributeError "_all_keys") /\
  snd (__init__ (mkPath ".txt" (Parsed doc_user) Unparsable)) =
    Raise (AttributeError "_all_keys") /\
  snd (__init__ (csv_file [])) = Raise (AttributeError "_all_keys").
Proof. repeat split; vm_compute; reflexivity. Qed.

(** ** Key filter: what it reads and what it assigns *)

Lemma apply_key_filter_frame (self : FuzzyJSONSearcher) :
  let self' := fst (_apply_key_filter self) in
  data self' = data self /\
  _all_keys self' = _all_keys self /\
  _all_values self' = _all_values self /\
  _allowed_keys_filter self' = _allowed_keys_filter self.
Proof.
  destruct self as [d uk pats ak av uv idx].
  unfold _apply_key_filter, bind, read, getattr, assign. simpl.
  destruct pats, ak, av; simpl; done.
Qed.

Lemma only_frame (patterns : list string) (self : FuzzyJSONSearcher) :
  let self' := fst (only patterns self) in
  data self' = data self /\
  _all_keys self' = _all_keys self /\
  _all_values self' = _all_values self.
Proof.
  unfold only, bind, assign. simpl.
  pose proof (apply_key_filter_frame (set_allowed_keys_filter patterns self))
    as (Hd & Hk & Hv & _).
  simpl in *.
  destruct (_apply_key_filter (set_allowed_keys_filter patterns self))
    as [self' [[]|e]]; simpl in *; done.
Qed.

(** C10 (frame of the key filter).  [_apply_key_filter] leaves the loaded
    document, the two unfiltered traversal results and the pattern list as
    they are, whatever the state it runs in and whether it returns or
    raises; only [unique_keys], [unique_values] and [value_to_keys_map] are
    assigned.  The same holds of the document and the traversal results
    across any run of filter commands. *)
Theorem key_filter_frame :
  (forall self,
      exists keys values index,
        fst (_apply_key_filter self) =
          mkSearcher (data self) keys (_allowed_keys_filter self)
            (_all_keys self) (_all_values self) values index) /\
  (forall commands self,
      let self' := fst (only_session commands self) in
      data self' = data self /\
      _all_keys self' = _all_keys self /\
      _all_values self' = _all_values self).
Proof.
  split.
  - intros self.
    pose proof (apply_key_filter_frame self) as (Hd & Hk & Hv & Hf).
    destruct (fst (_apply_key_filter self)) as [d uk pats ak av uv idx].
    simpl in *. subst. by eexists _, _, _.
  - intros commands. induction commands as [|patterns rest IH]; intros self.
    + done.
    + simpl. pose proof (only_frame patterns self) as (Hd & Hk & Hv).
      destruct (only patterns self) as [self1 [[]|e]]; simpl in *.
      * destruct (IH self1) as (Hd' & Hk' & Hv').
        by rewrite Hd', Hk', Hv'.
      * done.
Qed.

(** C9 (idempotence and clearing).  On a searcher whose unfiltered
    derivation succeeds, setting a pattern list succeeds; setting the same
    list again changes nothing; and clearing the filter afterwards gives
    exactly the state that clearing gives without the filter having been
    set, that is the unfiltered key universe, value universe and index.
    This holds for every pattern list, the non-empty ones in particular. *)
Theorem filter_idempotent_and_clearable (self : FuzzyJSONSearcher)
  (patterns : list string) :
  snd (only [] self) = Return tt ->
  let once := only patterns self in
  let twice := only patterns (fst once) in
  let cleared := only [] (fst once) in
  snd once = Return tt /\ twice = once /\ cleared = only [] self.
Proof.
  destruct self as [d uk pats ak av uv idx].
  unfold only, _apply_key_filter, bind, read, getattr, assign. simpl.
  destruct ak as [ak|]; simpl; [|done].
  destruct av as [av|]; simpl; [|done].
  intros _. destruct patterns; simpl; done.
Qed.

Lemma filter_idempotent_and_clearable_witness :
  let self := fst (__init__ (json_file doc_user)) in
  let once := only ["tags"] self in
  snd once = Return tt /\
  only ["tags"] (fst once) = once /\
  only [] (fst once) = only [] self.
Proof.
  apply (filter_idempotent_and_clearable
           (fst (__init__ (json_file doc_user))) ["tags"]).
  vm_compute. reflexivity.
Defined.

(** ** Key filter: what is retained *)

Lemma elem_of_filter_keys (patterns all_keys : list string) (k : string) :
  k ∈ filter_keys patterns all_keys <->
  k ∈ all_keys /\ exists p, p ∈ patterns /\ py_in p k = true.
Proof.
  unfold filter_keys. rewrite list_elem_of_In, filter_In, existsb_exists.
  rewrite <- list_elem_of_In. split.
  - intros [Hk (p & Hp & Hin)]. split; [done|]. exists p.
    by rewrite list_elem_of_In.
  - intros [Hk (p & Hp & Hin)]. split; [done|]. exists p.
    by rewrite <- list_elem_of_In.
Qed.

Lemma lookup_filter_index (retained : list string)
  (index : gmap string (list string)) (s : string) :
  filter_index retained index !! s =
    match index !! s with
    | Some ks =>
        match List.filter (fun k => bool_decide (k ∈ retained)) ks with
        | [] => None
        | kept => Some kept
        end
    | None => None
    end.
Proof.
  unfold filter_index. rewrite lookup_omap. by destruct (index !! s).
Qed.

Lemma filter_all_retained (retained ks : list string) :
  (forall k, k ∈ ks -> k ∈ retained) ->
  List.filter (fun k => bool_decide (k ∈ retained)) ks = ks.
Proof.
  induction ks as [|k ks IH]; intros Hall; simpl; [done|].
  rewrite bool_decide_eq_true_2 by (apply Hall; left).
  f_equal. apply IH. intros k' Hk'. apply Hall. by right.
Qed.

Lemma filter_none_retained (retained ks : list string) :
  (forall k, k ∈ ks -> k ∉ retained) ->
  List.filter (fun k => bool_decide (k ∈ retained)) ks = [].
Proof.
  induction ks as [|k ks IH]; intros Hnone; simpl; [done|].
  rewrite bool_decide_eq_false_2 by (apply Hnone; left).
  apply IH. intros k' Hk'. apply Hnone. by right.
Qed.

(** C8 (key filter).  On a loaded searcher, setting the pattern list
    succeeds, and afterwards: a traversed key-path is in the key universe
    exactly when the pattern list is empty or some pattern occurs in it as a
    contiguous, case-sensitive run of characters at any offset; the entry
    of every scalar is its original entry restricted to the retained
    key-paths, an entry that would be empty not being stored; and a scalar
    none of whose key-paths is retained is in neither the index nor the
    value universe. *)
Theorem key_filter_retains (self : FuzzyJSONSearcher)
  (patterns all_keys : list string) :
  loaded self ->
  _all_keys self = Some all_keys ->
  let original := _build_value_to_key_map (data self) "" in
  let self' := fst (only patterns self) in
  snd (only patterns self) = Return tt /\
  (forall k,
      k ∈ unique_keys self' <->
      k ∈ all_keys /\
      (patterns = [] \/
       exists p a b, p ∈ patterns /\ (k = a ++ p ++ b)%string)) /\
  exists index' values',
    value_to_keys_map self' = Some index' /\
    unique_values self' = Some values' /\
    (forall s,
        index' !! s =
          match original !! s with
          | Some ks =>
              match List.filter
                      (fun k => bool_decide (k ∈ unique_keys self')) ks with
              | [] => None
              | kept => Some kept
              end
          | None => None
          end) /\
    (forall s ks,
        original !! s = Some ks ->
        (forall k, k ∈ ks -> k ∉ unique_keys self') ->
        index' !! s = None /\ s ∉ values').
Proof.
  destruct self as [d uk pats ak av uv idx].
  intros (ak' & av' & Hak & Hav & Hcov) Hall. simpl in *. subst ak av.
  injection Hall as ->.
  unfold only, _apply_key_filter, bind, read, getattr, assign. simpl.
  destruct patterns as [|p ps]; simpl.
  - split; [done|]. split.
    { intros k. rewrite elem_of_sorted_set. split; [by auto|by intros [? _]]. }
    eexists _, _. split; [done|]. split; [done|].
    assert (Hkeep : forall s ks,
               _build_value_to_key_map d "" !! s = Some ks ->
               List.filter (fun k => bool_decide (k ∈ sorted_set all_keys)) ks
               = ks).
    { intros s ks Hs. apply filter_all_retained. intros k Hk.
      apply elem_of_sorted_set. by eapply Hcov. }
    split.
    + intros s. destruct (_build_value_to_key_map d "" !! s) as [ks|] eqn:Hs;
        [|done].
      rewrite (Hkeep s ks Hs). destruct ks; [|done].
      by apply index_entries_nonempty in Hs.
    + intros s ks Hs Hnone. exfalso. destruct ks as [|k ks].
      * by apply index_entries_nonempty in Hs.
      * apply (Hnone k); [by left|]. apply elem_of_sorted_set.
        eapply Hcov; [exact Hs|by left].
  - split; [done|]. split.
    { intros k. rewrite elem_of_sorted_set, elem_of_filter_keys. split.
      - intros [Hk (q & Hq & Hin)]. split; [done|]. right.
        apply py_in_substring in Hin as (a & b & Hab). by exists q, a, b.
      - intros [Hk [?|(q & a & b & Hq & Hab)]]; [done|]. split; [done|].
        exists q. split; [done|]. apply py_in_substring. by exists a, b. }
    eexists _, _. split; [done|]. split; [done|]. split.
    + intros s. apply lookup_filter_index.
    + intros s ks Hs Hnone.
      assert (Hgone : filter_index
                        (sorted_set (filter_keys (p :: ps) all_keys))
                        (_build_value_to_key_map d "") !! s = None).
      { rewrite lookup_filter_index, Hs.
        by rewrite (filter_none_retained _ ks Hnone). }
      split; [done|]. rewrite elem_of_sorted_elements, elem_of_dom, Hgone.
      by intros [? ?].
Qed.

Lemma key_filter_retains_witness :
  let self := fst (__init__ (json_file doc_user)) in
  snd (only ["tags"] self) = Return tt /\
  (forall k,
      k ∈ unique_keys (fst (only ["tags"] self)) <->
      k ∈ ["user"; "user.name"; "user.tags"] /\
      (["tags"] = [] \/
       exists p a b, p ∈ ["tags"] /\ (k = a ++ p ++ b)%string)).
Proof.
  assert (Hloaded : loaded (fst (__init__ (json_file doc_user)))).
  { exists ["user"; "user.name"; "user.tags"], ["Alice"].
    split; [reflexivity|]. split; [reflexivity|].
    intros s ks k Hs Hk.
    apply (index_keys_are_extracted doc_user "" s k ks Hs Hk). }
  pose proof (key_filter_retains (fst (__init__ (json_file doc_user)))
                ["tags"] ["user"; "user.name"; "user.tags"]
                Hloaded eq_refl) as (Hret & Hkeys & _).
  split; [exact Hret|exact Hkeys].
Defined.

(** ** Loading establishes the invariant *)

Lemma init_json (d : json) :
  py_truthy d = true ->
  __init__ (json_file d) =
    (mkSearcher d (sorted_set (_extract_json_keys d "")) []
       (Some (_extract_json_keys d "")) (Some (_extract_json_values d))
       (Some (sorted_set (_extract_json_values d)))
       (Some (_build_value_to_key_map d "")),
     Return tt).
Proof.
  intros Hd. unfold __init__, _load_data, _apply_key_filter, json_file,
    bind, read, getattr, assign, ret, _load_json. simpl. by rewrite Hd.
Qed.

Lemma init_json_loaded (d : json) :
  py_truthy d = true -> loaded (fst (__init__ (json_file d))).
Proof.
  intros Hd. rewrite (init_json d Hd). simpl.
  exists (_extract_json_keys d ""), (_extract_json_values d).
  split; [done|]. split; [done|]. intros s ks k.
  apply index_keys_are_extracted.
Qed.

Lemma only_result (self : FuzzyJSONSearcher)
  (patterns all_keys all_values : list string) :
  _all_keys self = Some all_keys ->
  _all_values self = Some all_values ->
  only patterns self =
    (match patterns with
     | [] =>
         mkSearcher (data self) (sorted_set all_keys) []
           (Some all_keys) (Some all_values) (Some (sorted_set all_values))
           (Some (_build_value_to_key_map (data self) ""))
     | _ =>
         let retained := sorted_set (filter_keys patterns all_keys) in
         let index := filter_index retained
                        (_build_value_to_key_map (data self) "") in
         mkSearcher (data self) retained patterns
           (Some all_keys) (Some all_values)
           (Some (sorted_elements (dom index))) (Some index)
     end, Return tt).
Proof.
  destruct self as [d uk pats ak av uv idx]. simpl. intros -> ->.
  unfold only, _apply_key_filter, bind, read, getattr, assign. simpl.
  by destruct patterns.
Qed.

(** ** Key universe and reverse index *)

(** C6, as stated, fails on the scenario document: [user] is in the
    deduplicated flattening but in no entry of the index, which only holds
    the key-paths of scalar leaves. *)
Lemma key_universe_exceeds_index_keys :
  "user" ∈ sorted_set (_extract_json_keys doc_user "") /\
  forall s ks,
    _build_value_to_key_map doc_user "" !! s = Some ks -> "user" ∉ ks.
Proof.
  split.
  - apply elem_of_sorted_set. simpl. by left.
  - assert (_build_value_to_key_map doc_user "" = {["Alice" := ["user.name"]]})
      as -> by (vm_compute; reflexivity).
    intros s ks [_ <-]%lookup_singleton_Some Hin.
    apply list_elem_of_singleton in Hin. discriminate.
Qed.

(** C6 (key universe and reverse index), amended.  Every key-path stored
    in an entry of the index built from a document is in the deduplicated
    flattening of the document, and after any filter command on a loaded
    searcher every key-path stored in an entry of the filtered index is in
    the filtered key universe.  (The converse inclusion does not hold:
    key-paths that reach composites are in no entry.) *)
Theorem index_keys_within_key_universe :
  (forall d s ks k,
      _build_value_to_key_map d "" !! s = Some ks ->
      k ∈ ks -> k ∈ sorted_set (_extract_json_keys d "")) /\
  (forall self patterns index' s ks k,
      loaded self ->
      value_to_keys_map (fst (only patterns self)) = Some index' ->
      index' !! s = Some ks ->
      k ∈ ks -> k ∈ unique_keys (fst (only patterns self))).
Proof.
  split.
  - intros d s ks k Hs Hk. apply elem_of_sorted_set.
    by eapply index_keys_are_extracted.
  - intros self patterns index' s ks k (ak & av & Hak & Hav & Hcov).
    rewrite (only_result self patterns ak av Hak Hav).
    destruct patterns as [|p ps]; simpl.
    + intros [= <-] Hs Hk. apply elem_of_sorted_set. by eapply Hcov.
    + intros [= <-]. rewrite lookup_filter_index.
      destruct (_build_value_to_key_map (data self) "" !! s) as [ks0|];
        [|done].
      destruct (List.filter _ ks0) as [|k0 kept] eqn:Hkept; [done|].
      intros [= <-] Hk. rewrite <- Hkept in Hk.
      apply list_elem_of_In, filter_In in Hk as [_ Hk].
      by apply bool_decide_eq_true in Hk.
Qed.

Lemma index_keys_within_key_universe_witness :
  "user.name" ∈ unique_keys (fst (only ["name"] (fst (__init__ (json_file doc_user))))).
Proof.
  apply (proj2 index_keys_within_key_universe
           (fst (__init__ (json_file doc_user))) ["name"]
           {["Alice" := ["user.name"]]} "Alice" ["user.name"] "user.name").
  - apply init_json_loaded. reflexivity.
  - vm_compute. reflexivity.
  - vm_compute. reflexivity.
  - by left.
Defined.

(** ** CSV sources *)

Lemma record_values (r : csv_record) :
  _extract_json_values (record_to_json r) =
    map (fun kv => field_str (snd kv)) (record_fields r).
Proof.
  unfold record_to_json. generalize (record_fields r). intros fields. simpl.
  induction fields as [|[k [v|]] fields IH]; simpl; [done|..]; by rewrite IH.
Qed.

Lemma csv_values (rows : list csv_record) (s : string) :
  s ∈ _extract_json_values (csv_data (Some rows)) <->
  exists r k v, r ∈ rows /\ (k, v) ∈ record_fields r /\ s = field_str v.
Proof.
  simpl. rewrite elem_of_flat_map. split.
  - intros (x & Hx & Hs).
    apply list_elem_of_In, in_map_iff in Hx as (r & <- & Hr).
    rewrite record_values in Hs.
    apply list_elem_of_In, in_map_iff in Hs as ([k v] & Heq & Hin).
    simpl in Heq. exists r, k, v. by rewrite !list_elem_of_In.
  - intros (r & k & v & Hr & Hin & ->). exists (record_to_json r). split.
    + apply list_elem_of_In, in_map. by apply list_elem_of_In.
    + rewrite record_values. apply list_elem_of_In.
      apply (in_map (fun kv => field_str (snd kv)) (record_fields r) (k, v)).
      by apply list_elem_of_In.
Qed.

Lemma init_csv (first : csv_record) (rest : list csv_record) :
  restkey first = None ->
  __init__ (csv_file (first :: rest)) =
    (mkSearcher (csv_data (Some (first :: rest)))
       (sorted_set (map fst (record_fields first)))
       [] (Some (map fst (record_fields first))) (Some []) (Some [])
       (Some (_build_value_to_key_map (csv_data (Some (first :: rest))) "")),
     Return tt).
Proof.
  intros Hfirst. unfold __init__, _load_data, csv_file. cbn [suffix].
  change (String.eqb ".csv" ".json") with false.
  change (String.eqb ".csv" ".csv") with true. cbv iota.
  unfold _load_csv. cbn [csv_text]. rewrite Hfirst. reflexivity.
Qed.

(** A first record that is longer than the header stops the constructor. *)
Lemma init_csv_long (first : csv_record) (rest : list csv_record)
  (surplus : list string) :
  restkey first = Some surplus ->
  snd (__init__ (csv_file (first :: rest))) = Raise TypeError.
Proof.
  intros Hfirst. unfold __init__, _load_data, csv_file. cbn [suffix].
  change (String.eqb ".csv" ".json") with false.
  change (String.eqb ".csv" ".csv") with true. cbv iota.
  unfold _load_csv. cbn [csv_text]. rewrite Hfirst. reflexivity.
Qed.

Lemma init_csv_returns (first : csv_record) (rest : list csv_record) :
  snd (__init__ (csv_file (first :: rest))) = Return tt ->
  restkey first = None.
Proof.
  destruct (restkey first) as [surplus|] eqn:Hfirst; [|done].
  by rewrite (init_csv_long first rest surplus Hfirst).
Qed.

Lemma record_keys (r : csv_record) :
  _extract_json_keys (record_to_json r) "" = map fst (record_fields r).
Proof.
  unfold record_to_json. generalize (record_fields r). intros fields. simpl.
  induction fields as [|[k [v|]] fields IH]; simpl; [done|..]; by rewrite IH.
Qed.

(** A CSV source whose first record is not longer than the header is
    loaded; every record carries the field names of the header. *)
Lemma init_csv_loaded (first : csv_record) (rest : list csv_record) :
  restkey first = None ->
  Forall (fun r => map fst (record_fields r) = map fst (record_fields first))
    rest ->
  loaded (fst (__init__ (csv_file (first :: rest)))).
Proof.
  intros Hfirst Hsame. rewrite (init_csv first rest Hfirst).
  exists (map fst (record_fields first)), []. split; [done|]. split; [done|].
  cbn [fst data]. intros s ks k Hs Hk.
  pose proof (index_keys_are_extracted _ _ _ _ _ Hs Hk) as Hin.
  unfold csv_data in Hin. cbn [_extract_json_keys] in Hin.
  apply elem_of_flat_map in Hin as (x & Hx & Hin).
  apply list_elem_of_In, in_map_iff in Hx as (r & <- & Hr).
  rewrite record_keys in Hin.
  destruct Hr as [<-|Hr]; [done|].
  rewrite Forall_forall in Hsame.
  by rewrite <- (Hsame r) by (by apply list_elem_of_In).
Qed.

(** C5, as stated, fails for the CSV document with the single record
    [{"name": "Alice"}]: the record has a field value and the value
    universe derived on loading is empty. *)
Lemma csv_value_universe_is_empty :
  unique_values
    (fst (__init__ (csv_file [mkRecord ("name", Some "Alice") [] None])))
  = Some [] /\
  ("name", Some "Alice") ∈
    record_fields (mkRecord ("name", Some "Alice") [] None).
Proof. split; [reflexivity|by left]. Qed.

(** C5 (CSV sources), amended.  Loading a CSV document that has at least
    one record, the first of which is not longer than the header, succeeds
    with an empty value universe, the value list of a CSV source being set
    to the empty list.  The flat record field values, printed as [str]
    prints them (the text of a field, [None] for a field that a short row
    lacks), are exactly the scalars that have an entry in the reverse
    index, every record contributing its own. *)
Theorem csv_values_are_indexed_not_listed (first : csv_record)
  (rest : list csv_record) :
  restkey first = None ->
  let rows := first :: rest in
  let result := __init__ (csv_file rows) in
  snd result = Return tt /\
  _all_values (fst result) = Some [] /\
  unique_values (fst result) = Some [] /\
  exists index,
    value_to_keys_map (fst result) = Some index /\
    forall s,
      is_Some (index !! s) <->
      exists r k v, r ∈ rows /\ (k, v) ∈ record_fields r /\ s = field_str v.
Proof.
  intros Hfirst rows result. unfold result, rows.
  rewrite (init_csv first rest Hfirst).
  cbn [fst snd _all_values unique_values value_to_keys_map].
  split; [done|]. split; [done|]. split; [done|].
  exists (_build_value_to_key_map (csv_data (Some (first :: rest))) "").
  split; [done|]. intros s.
  rewrite index_domain_is_values. apply csv_values.
Qed.

Lemma csv_values_are_indexed_not_listed_witness :
  let rows := [mkRecord ("name", Some "Alice") [("age", Some "30")] None;
               mkRecord ("name", Some "Bob") [("age", None)] None;
               mkRecord ("name", Some "Eve") [("age", Some "41")]
                 (Some ["x"; "y"])] in
  snd (__init__ (csv_file rows)) = Return tt /\
  _all_values (fst (__init__ (csv_file rows))) = Some [] /\
  unique_values (fst (__init__ (csv_file rows))) = Some [] /\
  exists index,
    value_to_keys_map (fst (__init__ (csv_file rows))) = Some index /\
    forall s,
      is_Some (index !! s) <->
      exists r k v, r ∈ rows /\ (k, v) ∈ record_fields r /\ s = field_str v.
Proof.
  apply (csv_values_are_indexed_not_listed
           (mkRecord ("name", Some "Alice") [("age", Some "30")] None)
           [mkRecord ("name", Some "Bob") [("age", None)] None;
            mkRecord ("name", Some "Eve") [("age", Some "41")]
              (Some ["x"; "y"])]).
  reflexivity.
Defined.

(** ** Fuzzy ranker *)

Section RankerProperties.

Variable similarity : string -> string -> Q.

Lemma score_all_spec (query : string) (choices : list string) :
  forall i m,
    m ∈ score_all similarity query i choices ->
    (i <= index_of m)%nat /\
    choices !! (index_of m - i)%nat = Some (choice_of m) /\
    score_of m = WRatio similarity query (choice_of m).
Proof.
  induction choices as [|c rest IH]; intros i m Hm; simpl in Hm.
  - inversion Hm.
  - apply elem_of_cons in Hm as [->|Hm].
    + unfold index_of, choice_of, score_of. simpl.
      by rewrite Nat.sub_diag.
    + destruct (IH _ _ Hm) as (Hle & Hlook & Hscore).
      split; [lia|]. split; [|done].
      replace (index_of m - i)%nat with (S (index_of m - S i)) by lia.
      exact Hlook.
Qed.

Lemma score_all_earlier (query : string) (choices : list string) :
  forall i, StronglySorted earlier (score_all similarity query i choices).
Proof.
  induction choices as [|c rest IH]; intros i; simpl; constructor.
  - apply IH.
  - apply Forall_forall. intros m Hm.
    apply score_all_spec in Hm as (Hle & _). unfold earlier, index_of in *.
    simpl. lia.
Qed.

Lemma StronglySorted_filter {A : Type} (R : relation A) (f : A -> bool)
  (l : list A) :
  StronglySorted R l -> StronglySorted R (List.filter f l).
Proof.
  induction 1 as [|x l Hl IH Hx]; simpl; [constructor|].
  destruct (f x); [|done]. constructor; [done|].
  apply Forall_forall. intros y Hy.
  apply list_elem_of_In, filter_In in Hy as [Hy _].
  rewrite Forall_forall in Hx. apply Hx. by apply list_elem_of_In.
Qed.

Lemma StronglySorted_take {A : Type} (R : relation A) (n : nat) (l : list A) :
  StronglySorted R l -> StronglySorted R (take n l).
Proof.
  intros Hl. revert n. induction Hl as [|x l Hl IH Hx]; intros [|n]; simpl;
    try constructor.
  - apply IH.
  - rewrite Forall_forall in *. intros y Hy. apply Hx.
    by apply (subseteq_take n l).
Qed.

Lemma insert_match_perm (m : match_) (ranked : list match_) :
  insert_match m ranked ≡ₚ m :: ranked.
Proof.
  induction ranked as [|m' rest IH]; simpl; [done|].
  destruct (Qle_bool (score_of m') (score_of m)); [done|].
  rewrite IH. apply Permutation_swap.
Qed.

Lemma rank_matches_perm (ms : list match_) : rank_matches ms ≡ₚ ms.
Proof.
  induction ms as [|m ms IH]; simpl; [done|].
  by rewrite insert_match_perm, IH.
Qed.

Lemma beats_not_worse (m m' : match_) :
  beats m m' -> (score_of m' <= score_of m)%Q.
Proof.
  intros [Hlt|[Heq _]]; [by apply Qlt_le_weak|].
  apply Qle_lteq. by right.
Qed.

Lemma insert_match_sorted (m : match_) (ranked : list match_) :
  StronglySorted beats ranked ->
  Forall (earlier m) ranked ->
  StronglySorted beats (insert_match m ranked).
Proof.
  induction 1 as [|m' rest Hrest IH Hm']; intros Hearly; simpl.
  - repeat constructor.
  - apply Forall_cons in Hearly as [Hm Hearly].
    destruct (Qle_bool (score_of m') (score_of m)) eqn:Hcmp.
    + apply Qle_bool_iff in Hcmp.
      constructor; [by constructor|].
      assert (Hall : forall x, (score_of x <= score_of m')%Q -> earlier m x ->
                               beats m x).
      { intros x Hx Hidx.
        destruct (Qle_lt_or_eq _ _ (Qle_trans _ _ _ Hx Hcmp)) as [Hlt|Heq];
          [by left|by right]. }
      constructor.
      * apply Hall; [apply Qle_refl|done].
      * rewrite Forall_forall in *. intros x Hx.
        apply Hall; [by apply beats_not_worse, Hm'|by apply Hearly].
    + assert (Hlt : (score_of m < score_of m')%Q).
      { apply Qnot_le_lt. intros Hle. apply Qle_bool_iff in Hle. congruence. }
      constructor; [by apply IH|].
      rewrite Forall_forall in *. intros x Hx.
      rewrite insert_match_perm in Hx. apply elem_of_cons in Hx as [->|Hx].
      * by left.
      * by apply Hm'.
Qed.

Lemma rank_matches_sorted (ms : list match_) :
  StronglySorted earlier ms -> StronglySorted beats (rank_matches ms).
Proof.
  induction 1 as [|m ms Hms IH Hm]; simpl; [constructor|].
  apply insert_match_sorted; [done|].
  rewrite Forall_forall in *. intros x Hx. apply Hm.
  by rewrite rank_matches_perm in Hx.
Qed.

Lemma process_extract_elem (query : string) (choices : list string)
  (limit : nat) (score_cutoff : Q) (m : match_) :
  m ∈ process_extract similarity query choices limit score_cutoff ->
  choices !! index_of m = Some (choice_of m) /\
  score_of m = WRatio similarity query (choice_of m) /\
  (score_cutoff <= score_of m)%Q.
Proof.
  unfold process_extract. intros Hm.
  apply (subseteq_take limit) in Hm. rewrite rank_matches_perm in Hm.
  apply list_elem_of_In, filter_In in Hm as [Hm Hcut].
  apply list_elem_of_In, score_all_spec in Hm as (_ & Hlook & Hscore).
  rewrite Nat.sub_0_r in Hlook. apply Qle_bool_iff in Hcut. done.
Qed.

Lemma process_extract_sorted (query : string) (choices : list string)
  (limit : nat) (score_cutoff : Q) :
  StronglySorted beats
    (process_extract similarity query choices limit score_cutoff).
Proof.
  unfold process_extract. apply StronglySorted_take, rank_matches_sorted,
    StronglySorted_filter, score_all_earlier.
Qed.

Lemma process_extract_empty_query (choices : list string) (limit : nat)
  (score_cutoff : Q) :
  (0 < score_cutoff)%Q ->
  process_extract similarity "" choices limit score_cutoff = [].
Proof.
  intros Hpos. unfold process_extract.
  assert (Hnone : forall i,
             List.filter (fun m => Qle_bool score_cutoff (score_of m))
               (score_all similarity "" i choices) = []).
  { induction choices as [|c rest IH]; intros i; simpl; [done|].
    unfold score_of at 1. cbn [fst snd].
    change (WRatio similarity "" c) with 0%Q.
    destruct (Qle_bool score_cutoff 0) eqn:Hcmp; [|apply IH].
    apply Qle_bool_iff in Hcmp. exfalso.
    by apply (Qlt_irrefl 0), (Qlt_le_trans _ score_cutoff). }
  rewrite Hnone. simpl. by destruct limit.
Qed.

End RankerProperties.

(** C7 (fuzzy ranker).  For every scorer, query, candidate sequence, limit
    and minimum score, the ranker returns at most [limit] matches; each is a
    candidate at its position with its weighted-ratio score, which reaches
    the minimum score; the matches are in descending score order, equal
    scores in the order of the candidate sequence.  An empty candidate
    sequence gives no match, and so does the empty query at the minimum
    score 60.  The search passes the current key or value universe with
    the minimum score 60 and its limit, 10 unless told otherwise, and
    changes nothing; the inline completion does the same with limit 5 and
    yields nothing for an empty text. *)
Theorem ranker_contract (similarity : string -> string -> Q) :
  (forall query candidates limit min_score,
      let matches := process_extract similarity query candidates limit min_score in
      (length matches <= limit)%nat /\
      (forall m, m ∈ matches ->
                 candidates !! index_of m = Some (choice_of m) /\
                 score_of m = WRatio similarity query (choice_of m) /\
                 (min_score <= score_of m)%Q) /\
      StronglySorted beats matches) /\
  (forall candidates limit,
      process_extract similarity "" candidates limit 60 = []) /\
  (forall query limit min_score,
      process_extract similarity query [] limit min_score = []) /\
  default_limit = 10%nat /\
  (forall self search_type candidates query limit,
      search_type = "keys" /\ candidates = unique_keys self \/
      search_type <> "keys" /\ unique_values self = Some candidates ->
      fuzzy_search similarity query limit search_type self =
        (self,
         Return (map (fun m => (choice_of m, score_of m))
                   (process_extract similarity query candidates limit 60)))) /\
  (forall self completion_type candidates text_before_cursor,
      completion_type = "keys" /\ candidates = unique_keys self \/
      completion_type <> "keys" /\ unique_values self = Some candidates ->
      text_before_cursor <> "" ->
      get_completions similarity completion_type text_before_cursor self =
        (self,
         Return (map (fun m =>
                        mkCompletion (choice_of m)
                          (- Z.of_nat (py_len text_before_cursor)))
                   (process_extract similarity text_before_cursor
                      candidates 5 60)))) /\
  (forall self completion_type,
      get_completions similarity completion_type "" self = (self, Return [])).
Proof.
  split; [|split; [|split; [|split; [done|split; [|split; [|done]]]]]].
  - intros query candidates limit min_score matches. split; [|split].
    + unfold matches, process_extract. rewrite length_take. lia.
    + intros m Hm. by apply process_extract_elem in Hm.
    + apply process_extract_sorted.
  - intros candidates limit. by apply process_extract_empty_query.
  - intros query limit min_score. unfold process_extract. simpl.
    by destruct limit.
  - intros self search_type candidates query limit Hc.
    unfold fuzzy_search, bind, read, getattr, ret.
    destruct Hc as [[-> ->]|[Hne Hv]]; simpl; [done|].
    apply String.eqb_neq in Hne as ->. by rewrite Hv.
  - intros self completion_type candidates text_before_cursor Hc Htext.
    unfold get_completions, bind, read, getattr, ret.
    apply String.eqb_neq in Htext as ->.
    destruct Hc as [[-> ->]|[Hne Hv]]; simpl.
    + by rewrite map_map.
    + apply String.eqb_neq in Hne as ->. rewrite Hv. by rewrite map_map.
Qed.

Lemma ranker_contract_witness :
  fuzzy_search sample_similarity "nam" 10 "keys"
    (fst (__init__ (json_file doc_user))) =
    (fst (__init__ (json_file doc_user)), Return [("user.name", 70%Q)]).
Proof.
  apply (proj1 (proj2 (proj2 (proj2 (proj2
           (ranker_contract sample_similarity)))))
           (fst (__init__ (json_file doc_user))) "keys"
           ["user"; "user.name"; "user.tags"] "nam" 10%nat).
  left. split; reflexivity.
Defined.

(** * Further properties of the code *)

(** ** Splitting key-paths *)

Lemma plain_name_spec (k : string) :
  plain_name k = true <-> k <> "" /\ py_in "." k = false.
Proof.
  unfold plain_name. rewrite andb_true_iff, !negb_true_iff, String.eqb_neq.
  done.
Qed.

Lemma full_key_nonempty (prefix k : string) :
  k <> "" -> full_key prefix k <> "".
Proof. intros Hk. destruct prefix; simpl; [done|discriminate]. Qed.

Lemma segments_full_key (prefix k : string) (ps : list string) :
  plain_name k = true ->
  segments prefix ps -> segments (full_key prefix k) (ps ++ [k]).
Proof.
  intros [Hk Hdot]%plain_name_spec Hseg. right.
  split; [by apply full_key_nonempty|].
  destruct Hseg as [[-> ->]|[Hp <-]].
  - simpl. by apply split_dot_single.
  - destruct prefix as [|c prefix]; [done|]. unfold full_key.
    change ("." ++ k)%string with (String "."%char k).
    unfold split_dot. rewrite split_on_sep. f_equal.
    by apply split_dot_single.
Qed.

(** ** Key-paths that resolve *)

Lemma keyless_located (d : json) :
  forall prefix, keyless d = true -> located d prefix = [].
Proof.
  induction d as [v|items IH|items IH] using json_induction;
    intros prefix Hd; simpl in *.
  - done.
  - induction IH as [|x items Hx _ IHitems]; simpl in *; [done|].
    apply andb_true_iff in Hd as [Hx' Hitems].
    by rewrite (Hx prefix Hx'), IHitems.
  - by destruct items.
Qed.

Lemma dict_get_distinct (items : list (string * json)) (k : string) (v : json) :
  NoDup (map fst items) -> (k, v) ∈ items -> dict_get items k = Some v.
Proof.
  induction items as [|[k' v'] items IH]; intros Hnd Hin; simpl.
  - inversion Hin.
  - apply NoDup_cons in Hnd as [Hfresh Hnd].
    apply elem_of_cons in Hin as [[= <- <-]|Hin].
    + by rewrite String.eqb_refl.
    + destruct (String.eqb_spec k' k) as [->|Hne]; [|by apply IH].
      destruct Hfresh. apply list_elem_of_In.
      apply (in_map fst items (k, v)). by apply list_elem_of_In.
Qed.

Lemma located_walk (d : json) :
  maps_only d = true ->
  forall root ps prefix,
    segments prefix ps ->
    (forall rest, walk_keys root (ps ++ rest) = walk_keys d rest) ->
    forall k v, (k, v) ∈ located d prefix ->
                walk_keys root (split_dot k) = [v].
Proof.
  induction d as [sv|items IH|items IH] using json_induction;
    intros Hd root ps prefix Hseg Hroot k v Hin.
  - inversion Hin.
  - rewrite (keyless_located (JList items) prefix Hd) in Hin. inversion Hin.
  - simpl in Hd. apply andb_true_iff in Hd as [Hnd Hitems].
    apply bool_decide_eq_true in Hnd.
    simpl in Hin. apply elem_of_flat_map in Hin as ([key x] & Hx & Hin).
    simpl in Hin.
    rewrite forallb_forall in Hitems.
    pose proof (Hitems _ (proj1 (list_elem_of_In _ _) Hx)) as Hkv.
    simpl in Hkv. apply andb_true_iff in Hkv as [Hname Hmaps].
    pose proof (segments_full_key prefix key ps Hname Hseg) as Hfull.
    assert (Hstep : forall rest,
               walk_keys root ((ps ++ [key]) ++ rest) = walk_keys x rest).
    { intros rest. rewrite <- app_assoc. simpl. rewrite Hroot. simpl.
      by rewrite (dict_get_distinct items key x Hnd Hx). }
    apply elem_of_cons in Hin as [[= -> ->]|Hin].
    + destruct Hfull as [[Hempty _]|[_ ->]].
      * apply plain_name_spec in Hname as [Hne _].
        by apply full_key_nonempty with (prefix := prefix) in Hne.
      * rewrite <- (app_nil_r (ps ++ [key])). by rewrite Hstep.
    + rewrite Forall_forall in IH.
      by apply (IH _ Hx Hmaps root (ps ++ [key]) (full_key prefix key)).
Qed.

Lemma resolvable_located (d : json) :
  resolvable d = true ->
  forall k v, (k, v) ∈ located d "" -> v ∈ _get_values_by_path d k.
Proof.
  induction d as [sv|items IH|items IH] using json_induction;
    intros Hd k v Hin.
  - inversion Hin.
  - simpl in *. apply elem_of_flat_map in Hin as (x & Hx & Hin).
    apply elem_of_flat_map. exists x. split; [done|].
    rewrite Forall_forall in IH. apply IH; [done| |done].
    rewrite forallb_forall in Hd. by apply Hd, list_elem_of_In.
  - change (_get_values_by_path (JDict items) k)
      with (walk_keys (JDict items) (split_dot k)).
    rewrite (located_walk (JDict items) Hd (JDict items) [] "" (or_introl (conj eq_refl eq_refl))
               (fun rest => eq_refl) k v Hin).
    by left.
Qed.

Lemma extracted_keys_located (d : json) :
  forall prefix, _extract_json_keys d prefix = map fst (located d prefix).
Proof.
  induction d as [v|items IH|items IH] using json_induction;
    intros prefix; simpl.
  - done.
  - induction IH as [|x items Hx _ IHitems]; simpl; [done|].
    by rewrite map_app, Hx, IHitems.
  - induction IH as [|[key x] items Hx _ IHitems]; simpl; [done|].
    by rewrite map_app, Hx, IHitems.
Qed.

Lemma leaves_located (d : json) :
  forall prefix k s,
    (k, s) ∈ scalar_leaves d prefix ->
    exists v, (k, JScalar v) ∈ located d prefix /\ py_str v = s.
Proof.
  induction d as [v|items IH|items IH] using json_induction;
    intros prefix k s; simpl.
  - intros Hin. inversion Hin.
  - rewrite elem_of_flat_map. intros (x & Hx & Hin).
    rewrite Forall_forall in IH. destruct (IH _ Hx _ _ _ Hin) as (v & Hv & Hs).
    exists v. split; [|done]. apply elem_of_flat_map. by exists x.
  - rewrite elem_of_flat_map. intros ([key x] & Hx & Hin). simpl in Hin.
    rewrite Forall_forall in IH. specialize (IH _ Hx). simpl in IH.
    assert (Hsub : (k, s) ∈ scalar_leaves x (full_key prefix key) ->
                   exists v, (k, JScalar v) ∈ located (JDict items) prefix /\
                             py_str v = s).
    { intros Hl. destruct (IH _ _ _ Hl) as (v & Hv & Hs). exists v.
      split; [|done]. simpl. apply elem_of_flat_map. exists (key, x).
      split; [done|]. simpl. by right. }
    destruct x as [sv|l|l]; [|by apply Hsub..].
    apply list_elem_of_singleton in Hin as [= -> ->]. exists sv.
    split; [|done]. simpl. apply elem_of_flat_map. exists (key, JScalar sv).
    split; [done|]. simpl. by left.
Qed.

(** X1.  On a document whose maps have plain names (not empty, no dot) and
    whose sequences below a map hold no key, every key-path listed by the
    flattener resolves to at least one value. *)
Theorem plain_keys_resolve (d : json) (k : string) :
  resolvable d = true ->
  k ∈ _extract_json_keys d "" ->
  exists v, v ∈ _get_values_by_path d k.
Proof.
  intros Hd Hk. rewrite extracted_keys_located in Hk.
  apply list_elem_of_In, in_map_iff in Hk as ([k' v] & Heq & Hin).
  simpl in Heq. subst k'. exists v.
  apply resolvable_located; [done|]. by apply list_elem_of_In.
Qed.

Lemma plain_keys_resolve_witness :
  exists v, v ∈ _get_values_by_path doc_user "user.tags".
Proof.
  apply (plain_keys_resolve doc_user "user.tags"); [reflexivity|].
  simpl. right. right. by left.
Defined.

(** X2.  On such a document, every key-path stored in the index under a
    scalar resolves to values among which is a scalar that prints as that
    scalar. *)
Theorem indexed_plain_keys_resolve (d : json) (s k : string)
  (ks : list string) :
  resolvable d = true ->
  _build_value_to_key_map d "" !! s = Some ks ->
  k ∈ ks ->
  exists v, JScalar v ∈ _get_values_by_path d k /\ py_str v = s.
Proof.
  intros Hd Hs Hk. pose proof (index_groups_leaves d "" s) as H.
  rewrite Hs in H. destruct H as [_ H]. apply H in Hk.
  apply leaves_located in Hk as (v & Hv & Hstr). exists v.
  split; [|done]. by apply resolvable_located.
Qed.

Lemma indexed_plain_keys_resolve_witness :
  exists v, JScalar v ∈ _get_values_by_path doc_user "user.name" /\
            py_str v = "Alice".
Proof.
  apply (indexed_plain_keys_resolve doc_user "Alice" "user.name"
           ["user.name"]); [reflexivity|vm_compute; reflexivity|by left].
Defined.

(** ** When loading returns *)



(** ** Order of the universes *)

Lemma sorted_elements_ascending (K : gset string) :
  ascending (sorted_elements K).
Proof.
  unfold ascending, sorted_elements. split.
  - apply StronglySorted_merge_sort; apply _.
  - rewrite (merge_sort_Permutation String.le (elements K)).
    apply NoDup_elements.
Qed.

Lemma index_entries_sorted (d : json) (prefix s : string) (ks : list string) :
  _build_value_to_key_map d prefix !! s = Some ks -> ascending ks.
Proof.
  destruct d as [v|items|items]; simpl; [by rewrite lookup_empty|..];
    unfold sorted_index; rewrite lookup_fmap;
    intros (K & _ & ->)%fmap_Some; apply sorted_elements_ascending.
Qed.

Lemma ascending_filter (f : string -> bool) (l : list string) :
  ascending l -> ascending (List.filter f l).
Proof.
  intros [Hs Hn]. split.
  - clear Hn. induction Hs as [|x l Hl IH Hx]; simpl; [constructor|].
    destruct (f x); [|done]. constructor; [done|].
    rewrite Forall_forall in *. intros y Hy. apply Hx.
    by apply list_elem_of_In, filter_In in Hy as [Hy%list_elem_of_In _].
  - by apply NoDup_ListNoDup, List.NoDup_filter, NoDup_ListNoDup.
Qed.

(** X4.  After the key filter has run with success, the key universe, the
    value universe and every entry of the index are in sorted order and free
    of repetitions. *)
Theorem universes_ascending (self : FuzzyJSONSearcher)
  (patterns all_keys all_values : list string) :
  _all_keys self = Some all_keys ->
  _all_values self = Some all_values ->
  let self' := fst (only patterns self) in
  ascending (unique_keys self') /\
  (forall values, unique_values self' = Some values -> ascending values) /\
  (forall index s ks,
      value_to_keys_map self' = Some index ->
      index !! s = Some ks -> ascending ks).
Proof.
  intros Hak Hav. rewrite (only_result self patterns _ _ Hak Hav).
  destruct patterns as [|p ps]; cbn [fst unique_keys unique_values
                                     value_to_keys_map].
  - split; [apply sorted_elements_ascending|]. split.
    + intros values [= <-]. apply sorted_elements_ascending.
    + intros index s ks [= <-]. apply index_entries_sorted.
  - split; [apply sorted_elements_ascending|]. split.
    + intros values [= <-]. apply sorted_elements_ascending.
    + intros index s ks [= <-]. rewrite lookup_filter_index.
      destruct (_build_value_to_key_map (data self) "" !! s) as [ks0|] eqn:Hs;
        [|done].
      apply index_entries_sorted in Hs.
      pose proof (ascending_filter
                    (fun k => bool_decide
                                (k ∈ sorted_set (filter_keys (p :: ps) all_keys)))
                    ks0 Hs) as Hf.
      destruct (List.filter _ ks0); [done|]. by intros [= <-].
Qed.

Lemma universes_ascending_witness :
  ascending (unique_keys (fst (only ["name"] (fst (__init__ (json_file doc_user)))))).
Proof.
  apply (proj1 (universes_ascending (fst (__init__ (json_file doc_user)))
                  ["name"] ["user"; "user.name"; "user.tags"] ["Alice"]
                  eq_refl eq_refl)).
Defined.

(** ** Value universe and index after a JSON load *)

(** X5.  On a searcher loaded from a JSON document, whatever the pattern
    list, the value universe holds exactly the scalars that have an entry
    in the index. *)
Theorem value_universe_is_index_domain (d : json) (patterns : list string) :
  py_truthy d = true ->
  let self' := fst (only patterns (fst (__init__ (json_file d)))) in
  exists values index,
    unique_values self' = Some values /\
    value_to_keys_map self' = Some index /\
    forall s, s ∈ values <-> is_Some (index !! s).
Proof.
  intros Hd. rewrite (init_json d Hd). cbn [fst].
  rewrite (only_result _ patterns (_extract_json_keys d "")
             (_extract_json_values d)) by reflexivity.
  destruct patterns as [|p ps]; cbn [fst data unique_values value_to_keys_map];
    eexists _, _; (split; [done|]); (split; [done|]); intros s.
  - by rewrite elem_of_sorted_set, index_domain_is_values.
  - by rewrite elem_of_sorted_elements, elem_of_dom.
Qed.

Lemma value_universe_is_index_domain_witness :
  exists values index,
    unique_values (fst (only ["name"] (fst (__init__ (json_file doc_user)))))
      = Some values /\
    value_to_keys_map (fst (only ["name"] (fst (__init__ (json_file doc_user)))))
      = Some index /\
    forall s, s ∈ values <-> is_Some (index !! s).
Proof.
  apply (value_universe_is_index_domain doc_user ["name"]). reflexivity.
Defined.

(** ** Patterns *)

Lemma py_in_empty (key : string) : py_in "" key = true.
Proof. rewrite py_in_unfold. by rewrite prefix_nil. Qed.

Lemma py_in_trans (q p k : string) :
  py_in q p = true -> py_in p k = true -> py_in q k = true.
Proof.
  rewrite !py_in_substring. intros (a' & b' & ->) (a & b & ->).
  exists (a ++ a')%string, (b' ++ b)%string.
  by rewrite !append_assoc.
Qed.

Lemma filter_keys_empty_pattern (patterns all_keys : list string) :
  "" ∈ patterns -> filter_keys patterns all_keys = all_keys.
Proof.
  intros Hin. unfold filter_keys.
  induction all_keys as [|k ks IH]; simpl; [done|].
  assert (existsb (fun pattern => py_in pattern k) patterns = true) as ->.
  { apply existsb_exists. exists "". split; [by apply list_elem_of_In|].
    apply py_in_empty. }
  by rewrite IH.
Qed.

(** X6.  A pattern list that holds the empty string filters nothing: on a
    searcher loaded from a JSON document the key universe, the value universe
    and the index are those of the unfiltered searcher. *)
Theorem empty_pattern_retains_all (d : json) (patterns : list string) :
  py_truthy d = true ->
  "" ∈ patterns ->
  let unfiltered := fst (__init__ (json_file d)) in
  let filtered := fst (only patterns unfiltered) in
  unique_keys filtered = unique_keys unfiltered /\
  unique_values filtered = unique_values unfiltered /\
  value_to_keys_map filtered = value_to_keys_map unfiltered.
Proof.
  intros Hd Hin. rewrite (init_json d Hd). cbn [fst].
  rewrite (only_result _ patterns (_extract_json_keys d "")
             (_extract_json_values d)) by reflexivity.
  destruct patterns as [|p ps]; [by inversion Hin|].
  cbn [fst data unique_keys unique_values value_to_keys_map].
  rewrite (filter_keys_empty_pattern (p :: ps) _ Hin).
  assert (Hidx : filter_index (sorted_set (_extract_json_keys d ""))
                   (_build_value_to_key_map d "") =
                 _build_value_to_key_map d "").
  { apply map_eq. intros s. rewrite lookup_filter_index.
    destruct (_build_value_to_key_map d "" !! s) as [ks|] eqn:Hs; [|done].
    rewrite filter_all_retained.
    - destruct ks; [|done]. by apply index_entries_nonempty in Hs.
    - intros k Hk. apply elem_of_sorted_set.
      by eapply index_keys_are_extracted. }
  rewrite Hidx. split; [done|]. split; [|done]. f_equal.
  unfold sorted_set. f_equal. apply set_eq. intros s.
  by rewrite elem_of_dom, index_domain_is_values, elem_of_list_to_set.
Qed.

Lemma empty_pattern_retains_all_witness :
  unique_keys (fst (only ["tags"; ""] (fst (__init__ (json_file doc_user)))))
  = unique_keys (fst (__init__ (json_file doc_user))).
Proof.
  apply (proj1 (empty_pattern_retains_all doc_user ["tags"; ""] eq_refl
                  ltac:(right; left))).
Defined.

(** X7.  Narrowing the patterns narrows the result: if every pattern of
    one list contains some pattern of another list, then on a loaded
    searcher the key universe and the value universe under the first list
    are included in those under the second, and in the unfiltered key
    universe. *)
Theorem filter_monotone (self : FuzzyJSONSearcher)
  (patterns patterns' : list string) :
  loaded self ->
  patterns <> [] ->
  (forall p, p ∈ patterns -> exists q, q ∈ patterns' /\ py_in q p = true) ->
  let narrow := fst (only patterns self) in
  let wide := fst (only patterns' self) in
  (forall k, k ∈ unique_keys narrow -> k ∈ unique_keys wide) /\
  (forall k, k ∈ unique_keys narrow ->
             k ∈ unique_keys (fst (only [] self))) /\
  (forall values values' s,
      unique_values narrow = Some values ->
      unique_values wide = Some values' ->
      s ∈ values -> s ∈ values').
Proof.
  intros (ak & av & Hak & Hav & Hcov) Hne Hsub.
  rewrite (only_result self patterns _ _ Hak Hav),
    (only_result self patterns' _ _ Hak Hav),
    (only_result self [] _ _ Hak Hav).
  destruct patterns as [|p ps]; [done|].
  destruct patterns' as [|p' ps'].
  { destruct (Hsub p) as (q & Hq & _); [by left|]. inversion Hq. }
  cbn [fst unique_keys unique_values].
  assert (Hkeys : forall k,
             k ∈ sorted_set (filter_keys (p :: ps) ak) ->
             k ∈ sorted_set (filter_keys (p' :: ps') ak)).
  { intros k. rewrite !elem_of_sorted_set, !elem_of_filter_keys.
    intros [Hk (x & Hx & Hin)]. split; [done|].
    destruct (Hsub x Hx) as (q & Hq & Hqx). exists q. split; [done|].
    by apply (py_in_trans q x k). }
  split; [exact Hkeys|]. split.
  - intros k. rewrite !elem_of_sorted_set, elem_of_filter_keys. by intros [? _].
  - intros values values' s [= <-] [= <-].
    rewrite !elem_of_sorted_elements, !elem_of_dom, !lookup_filter_index.
    destruct (_build_value_to_key_map (data self) "" !! s) as [ks|];
      [|done].
    destruct (List.filter _ ks) as [|k kept] eqn:Hkept; [by intros [? ?]|].
    intros _.
    assert (Hk : k ∈ List.filter
                       (fun k => bool_decide
                          (k ∈ sorted_set (filter_keys (p :: ps) ak))) ks)
      by (rewrite Hkept; by left).
    apply list_elem_of_In, filter_In in Hk as [Hk Hret].
    apply bool_decide_eq_true, Hkeys in Hret.
    assert (Hk' : In k (List.filter
                          (fun k => bool_decide
                             (k ∈ sorted_set (filter_keys (p' :: ps') ak))) ks)).
    { apply filter_In. split; [done|]. by apply bool_decide_eq_true. }
    destruct (List.filter
                (fun k => bool_decide
                   (k ∈ sorted_set (filter_keys (p' :: ps') ak))) ks);
      [inversion Hk'|by eexists].
Qed.

Lemma filter_monotone_witness :
  "user.name" ∈
    unique_keys (fst (only ["name"; "tags"] (fst (__init__ (json_file doc_user))))).
Proof.
  apply (proj1 (filter_monotone (fst (__init__ (json_file doc_user)))
                  ["user.name"] ["name"; "tags"]
                  (init_json_loaded doc_user eq_refl)
                  ltac:(discriminate)
                  ltac:(intros p Hp; apply list_elem_of_singleton in Hp as ->;
                        exists "name"; split; [by left|reflexivity]))).
  assert (unique_keys (fst (only ["user.name"] (fst (__init__ (json_file doc_user)))))
          = ["user.name"]) as -> by (vm_compute; reflexivity).
  by left.
Defined.

(** ** Runs of filter commands *)




(** ** How many values a path resolves to *)

Lemma walk_keys_at_most_one (keys : list string) :
  forall value, (length (walk_keys value keys) <= 1)%nat.
Proof.
  induction keys as [|key rest IH]; intros value; simpl; [lia|].
  destruct value as [s|items|items]; simpl; try lia.
  destruct (dict_get items key); [apply IH|simpl; lia].
Qed.

(** X9.  Only a sequence at the root makes a path resolve to several
    values: on a map the resolver returns at most one value, a path whose
    first segment is not a key of the map resolves to nothing, and on a
    scalar every path resolves to nothing. *)
Theorem resolver_on_maps_and_scalars (path : string) :
  (forall items, (length (_get_values_by_path (JDict items) path) <= 1)%nat) /\
  (forall items first rest,
      split_dot path = first :: rest ->
      dict_get items first = None ->
      _get_values_by_path (JDict items) path = []) /\
  (forall s, _get_values_by_path (JScalar s) path = []).
Proof.
  split; [|split].
  - intros items. apply walk_keys_at_most_one.
  - intros items first rest Hsplit Hnone. simpl. rewrite Hsplit. simpl.
    by rewrite Hnone.
  - intros s. simpl. destruct (split_dot path) eqn:Hsplit; [|done].
    by apply split_on_nonempty in Hsplit.
Qed.

Lemma resolver_on_maps_and_scalars_witness :
  _get_values_by_path doc_user "account.name" = [].
Proof.
  apply (proj1 (proj2 (resolver_on_maps_and_scalars "account.name"))
           _ "account" ["name"]); reflexivity.
Defined.

(** ** Shape of key-paths *)

(** Every key-path the flattener lists below a non-empty prefix is the
    prefix followed by a dot and more. *)
Lemma extracted_keys_extend_prefix (d : json) :
  forall prefix k,
    prefix <> "" ->
    k ∈ _extract_json_keys d prefix ->
    exists rest, (k = prefix ++ "." ++ rest)%string.
Proof.
  induction d as [v|items IH|items IH] using json_induction;
    intros prefix k Hp; simpl.
  - intros Hin. inversion Hin.
  - rewrite elem_of_flat_map. intros (x & Hx & Hin).
    rewrite Forall_forall in IH. by apply (IH x Hx prefix k).
  - rewrite elem_of_flat_map. intros ([key x] & Hx & Hin). simpl in Hin.
    assert (Hfull : full_key prefix key = (prefix ++ "." ++ key)%string)
      by (by destruct prefix).
    apply elem_of_cons in Hin as [->|Hin].
    + by exists key.
    + rewrite Forall_forall in IH.
      destruct (IH _ Hx (full_key prefix key) k) as [rest ->]; [|done|].
      * rewrite Hfull. by destruct prefix.
      * exists (key ++ "." ++ rest)%string. rewrite Hfull.
        by rewrite !append_assoc.
Qed.

(** X10.  A key-path that the flattener finds inside a sequence held by
    an entry of the root map never resolves: the resolver reaches the
    sequence with a segment left and returns nothing. *)
Theorem keys_below_sequence_resolve_to_nothing
  (items : list (string * json)) (key k : string) (l : list json) :
  NoDup (map fst items) ->
  plain_name key = true ->
  (key, JList l) ∈ items ->
  k ∈ _extract_json_keys (JList l) key ->
  _get_values_by_path (JDict items) k = [].
Proof.
  intros Hnd [Hne Hdot]%plain_name_spec Hentry Hk.
  destruct (extracted_keys_extend_prefix (JList l) key k Hne Hk) as [rest ->].
  change (_get_values_by_path (JDict items) (key ++ "." ++ rest)%string)
    with (walk_keys (JDict items) (split_dot (key ++ "." ++ rest)%string)).
  change ("." ++ rest)%string with (String "."%char rest).
  unfold split_dot. rewrite split_on_sep.
  rewrite (split_on_no_sep "" key Hdot).
  change ("" ++ key)%string with key.
  destruct (split_on "." "" rest) as [|seg segs] eqn:Hsplit;
    [by apply split_on_nonempty in Hsplit|].
  simpl. by rewrite (dict_get_distinct items key (JList l) Hnd Hentry).
Qed.

Lemma keys_below_sequence_resolve_to_nothing_witness :
  _get_values_by_path doc_items "items.id" = [].
Proof.
  apply (keys_below_sequence_resolve_to_nothing
           [("items", JList [JDict [("id", JScalar (SInt 1))]])]
           "items" "items.id" [JDict [("id", JScalar (SInt 1))]]).
  - apply NoDup_singleton.
  - reflexivity.
  - by left.
  - simpl. by left.
Defined.

(** ** Trees *)

Lemma item_children_take (render : json -> string -> Tree) (n : nat) :
  forall i l, item_children render i n l = item_children render i n (take n l).
Proof.
  induction n as [|n IH]; intros i [|item rest]; simpl; try done.
  by rewrite <- IH.
Qed.

Lemma length_item_children (render : json -> string -> Tree) (n : nat) :
  forall i l, length (item_children render i n l) = Nat.min n (length l).
Proof.
  induction n as [|n IH]; intros i [|item rest]; simpl; try done.
  by rewrite IH.
Qed.

(** X11.  The tree of a sequence shows its first five items only: the
    items after the fifth do not change the tree, and the node has as many
    children as the sequence has items, up to five.  The tree of a map has
    one child for each entry. *)
Theorem tree_shows_first_five_items (name : string) :
  (forall items,
      rich_tree (JList items) name = rich_tree (JList (take 5 items)) name /\
      length (children_of (rich_tree (JList items) name)) =
        Nat.min 5 (length items)) /\
  (forall items,
      length (children_of (rich_tree (JDict items) name)) = length items).
Proof.
  split.
  - intros items.
    change (rich_tree (JList items) name)
      with (Node name (item_children rich_tree 0 5 items)).
    change (rich_tree (JList (take 5 items)) name)
      with (Node name (item_children rich_tree 0 5 (take 5 items))).
    split.
    + f_equal. apply item_children_take.
    + apply length_item_children.
  - intros items. simpl. apply length_map.
Qed.

(** ** Displaying matches *)

Section DisplayProperties.

Variable str_score : Q -> string.

Lemma display_step_keys (d : json) (index : gmap string (list string))
  (acc : list (list string) * list (string * Q * list json))
  (found : string * Q) :
  display_step str_score "keys" d index acc found =
    (fst acc ++ key_match_rows str_score d found,
     snd acc ++ key_match_nested d found).
Proof.
  destruct acc as [table_rows nested], found as [m score].
  unfold display_step, key_match_rows, key_match_nested. cbn [fst snd].
  change (String.eqb "keys" "keys") with true. cbv iota.
  destruct (_get_values_by_path d m) as [|v values].
  - simpl. by rewrite !app_nil_r.
  - destruct (existsb is_composite (v :: values)); by rewrite app_nil_r.
Qed.

Lemma display_step_values (search_type : string) (d : json)
  (index : gmap string (list string))
  (acc : list (list string) * list (string * Q * list json))
  (found : string * Q) :
  String.eqb search_type "keys" = false ->
  display_step str_score search_type d index acc found =
    (fst acc ++ value_match_rows str_score index found, snd acc).
Proof.
  intros Hst. destruct acc as [table_rows nested], found as [m score].
  unfold display_step, value_match_rows. rewrite Hst. cbn [fst snd].
  destruct (default [] (index !! m)); [by rewrite app_nil_r|done].
Qed.

Lemma fold_display_keys (d : json) (index : gmap string (list string))
  (matches : list (string * Q)) :
  forall acc,
    fold_left (display_step str_score "keys" d index) matches acc =
      (fst acc ++ flat_map (key_match_rows str_score d) matches,
       snd acc ++ flat_map (key_match_nested d) matches).
Proof.
  induction matches as [|found rest IH]; intros acc; simpl.
  - rewrite !app_nil_r. by destruct acc.
  - rewrite IH, display_step_keys. cbn [fst snd]. by rewrite !app_assoc.
Qed.

Lemma fold_display_values (search_type : string) (d : json)
  (index : gmap string (list string)) (matches : list (string * Q)) :
  String.eqb search_type "keys" = false ->
  forall acc,
    fold_left (display_step str_score search_type d index) matches acc =
      (fst acc ++ flat_map (value_match_rows str_score index) matches,
       snd acc).
Proof.
  intros Hst. induction matches as [|found rest IH]; intros acc; simpl.
  - rewrite app_nil_r. by destruct acc.
  - rewrite IH, display_step_values by done. cbn [fst snd].
    by rewrite app_assoc.
Qed.

Lemma elem_of_value_rows (m score : string) (values : list json)
  (row : list string) :
  row ∈ value_rows m score values <->
  exists v, JScalar v ∈ values /\ row = [m; py_str v; score].
Proof.
  unfold value_rows. rewrite elem_of_flat_map. split.
  - intros (value & Hvalue & Hrow). destruct value as [v|l|l];
      [|inversion Hrow..].
    apply list_elem_of_singleton in Hrow. by exists v.
  - intros (v & Hv & ->). exists (JScalar v). split; [done|]. by left.
Qed.

(** The table and the trees printed for a search by keys. *)
Lemma display_matches_keys (self : FuzzyJSONSearcher)
  (found : string * Q) (rest : list (string * Q)) :
  let matches := found :: rest in
  let table_rows := flat_map (key_match_rows str_score (data self)) matches in
  display_matches str_score matches "keys" self =
    (self,
     Return
       (match table_rows with
        | [] => []
        | _ =>
            [PrintTable (Nat.ltb 20 (length matches))
               (mkTable ("Fuzzy Search Results (" ++ nat_str (length matches)
                         ++ " total)")
                  (result_columns "keys") table_rows)]
        end ++
        map (fun n : string * Q * list json =>
               PrintTree (nested_tree str_score (fst (fst n)) (snd (fst n))
                            (snd n)))
          (flat_map (key_match_nested (data self)) matches))).
Proof.
  intros matches table_rows.
  unfold display_matches, bind, read, ret. unfold matches at 1.
  change (String.eqb "keys" "keys") with true. cbv iota beta.
  fold matches. rewrite fold_display_keys. cbn [fst snd app]. done.
Qed.

End DisplayProperties.

(** X12.  When the display of the results of a search by keys returns, a
    row of the table it hands to the console is a matched key with one of
    the values it resolves to and the score, for the matches whose values
    are all scalars, and every such pair of match and value has its row; a
    match whose key resolves to nothing has no row. *)
Theorem key_rows_are_resolved_scalars (str_score : Q -> string)
  (self self' : FuzzyJSONSearcher) (matches : list (string * Q))
  (out : list emitted) :
  display_matches str_score matches "keys" self = (self', Return out) ->
  forall row,
    (exists paged table, PrintTable paged table ∈ out /\ row ∈ rows table) <->
    (exists m sc v,
        (m, sc) ∈ matches /\
        existsb is_composite (_get_values_by_path (data self) m) = false /\
        JScalar v ∈ _get_values_by_path (data self) m /\
        row = [m; py_str v; str_score sc]).
Proof.
  destruct matches as [|found rest].
  { intros [= _ <-] row. split.
    - intros (paged & table & Hin & _).
      apply list_elem_of_singleton in Hin. discriminate.
    - intros (m & sc & v & Hin & _). inversion Hin. }
  rewrite display_matches_keys.
  set (matches := found :: rest).
  set (table_rows := flat_map (key_match_rows str_score (data self)) matches).
  intros Hout row.
  apply (f_equal snd) in Hout. cbn [snd] in Hout.
  assert (Hreturned : forall a b : list emitted, Return a = Return b -> b = a)
    by (intros a b Hab; congruence).
  apply Hreturned in Hout. subst out. clear Hreturned.
  assert (Hrows : row ∈ table_rows <->
            exists m sc v,
              (m, sc) ∈ matches /\
              existsb is_composite (_get_values_by_path (data self) m) = false /\
              JScalar v ∈ _get_values_by_path (data self) m /\
              row = [m; py_str v; str_score sc]).
  { unfold table_rows. rewrite elem_of_flat_map. split.
    - intros ([m sc] & Hin & Hrow). unfold key_match_rows in Hrow.
      cbn [fst snd] in Hrow.
      destruct (existsb is_composite (_get_values_by_path (data self) m))
        eqn:Hc; [inversion Hrow|].
      apply elem_of_value_rows in Hrow as (v & Hv & ->). by exists m, sc, v.
    - intros (m & sc & v & Hin & Hc & Hv & ->). exists (m, sc).
      split; [done|]. unfold key_match_rows. cbn [fst snd]. rewrite Hc.
      apply elem_of_value_rows. by exists v. }
  rewrite <- Hrows. split.
  - intros (paged & table & Hin & Hrow).
    apply elem_of_app in Hin as [Hin|Hin].
    + destruct table_rows as [|r rs] eqn:Ht; [inversion Hin|].
      apply list_elem_of_singleton in Hin as [= _ ->]. exact Hrow.
    + apply list_elem_of_fmap in Hin as (n & Hn & _). discriminate.
  - intros Hrow. destruct table_rows as [|r rs] eqn:Ht; [inversion Hrow|].
    eexists _, _. split; [apply elem_of_app; left; by left|]. exact Hrow.
Qed.

Lemma key_rows_are_resolved_scalars_witness :
  (exists paged table,
      PrintTable paged table ∈
        [PrintTable false
           (mkTable "Fuzzy Search Results (2 total)"
              [("Key", "cyan"); ("Value", "magenta"); ("Score", "green")]
              [["user.name"; "Alice"; "70"]])] /\
      ["user.name"; "Alice"; "70"] ∈ rows table) <->
  (exists m sc v,
      (m, sc) ∈ [("user.name", 70%Q); ("account", 60%Q)] /\
      existsb is_composite (_get_values_by_path doc_user m) = false /\
      JScalar v ∈ _get_values_by_path doc_user m /\
      ["user.name"; "Alice"; "70"] = [m; py_str v; "70"]).
Proof.
  apply (key_rows_are_resolved_scalars (fun _ => "70")
           (fst (__init__ (json_file doc_user)))
           (fst (__init__ (json_file doc_user)))
           [("user.name", 70%Q); ("account", 60%Q)]).
  reflexivity.
Defined.

Lemma display_paged (str_score : Q -> string) (matches : list (string * Q))
  (search_type : string) (self self' : FuzzyJSONSearcher)
  (out : list emitted) (paged : bool) (table : Table) :
  display_matches str_score matches search_type self = (self', Return out) ->
  PrintTable paged table ∈ out ->
  paged = Nat.ltb 20 (length matches).
Proof.
  unfold display_matches, bind, read, getattr, ret.
  destruct matches as [|found rest].
  { intros [= _ <-] Hin. apply list_elem_of_singleton in Hin. discriminate. }
  set (matches := found :: rest).
  destruct (String.eqb search_type "keys").
  - destruct (fold_left _ matches ([], [])) as [table_rows nested].
    intros [= _ <-] Hin. apply elem_of_app in Hin as [Hin|Hin].
    + destruct table_rows; [inversion Hin|].
      by apply list_elem_of_singleton in Hin as [= -> _].
    + apply list_elem_of_fmap in Hin as (n & Hn & _). discriminate.
  - destruct (value_to_keys_map self) as [index|]; [|done].
    destruct (fold_left _ matches ([], [])) as [table_rows nested].
    intros [= _ <-] Hin. rewrite app_nil_r in Hin.
    destruct table_rows; [inversion Hin|].
    by apply list_elem_of_singleton in Hin as [= -> _].
Qed.

(** X13.  The results of a search with the default limit are never shown
    through the pager: the pager needs more than 20 matches and the search
    returns at most 10. *)
Theorem default_search_never_paged (similarity : string -> string -> Q)
  (str_score : Q -> string) (self self' : FuzzyJSONSearcher)
  (query search_type : string) (results : list (string * Q))
  (out : list emitted) (table : Table) :
  snd (fuzzy_search similarity query default_limit search_type self)
    = Return results ->
  display_matches str_score results search_type self = (self', Return out) ->
  PrintTable true table ∉ out.
Proof.
  intros Hsearch Hdisplay Hin.
  pose proof (display_paged _ _ _ _ _ _ _ _ Hdisplay Hin) as Hpaged.
  assert (Hlen : (length results <= 10)%nat).
  { revert Hsearch. unfold fuzzy_search, bind, read, getattr, ret.
    destruct (String.eqb search_type "keys"); simpl.
    - intros [= <-]. rewrite length_map. unfold process_extract.
      rewrite length_take. unfold default_limit. lia.
    - destruct (unique_values self); simpl; [|done].
      intros [= <-]. rewrite length_map. unfold process_extract.
      rewrite length_take. unfold default_limit. lia. }
  symmetry in Hpaged. apply Nat.ltb_lt in Hpaged. lia.
Qed.

Lemma default_search_never_paged_witness :
  PrintTable true (mkTable "" [] []) ∉
    [PrintTable false
       (mkTable "Fuzzy Search Results (1 total)"
          [("Key", "cyan"); ("Value", "magenta"); ("Score", "green")]
          [["user.name"; "Alice"; "70"]])].
Proof.
  apply (default_search_never_paged sample_similarity (fun _ => "70")
           (fst (__init__ (json_file doc_user)))
           (fst (__init__ (json_file doc_user)))
           "nam" "keys" [("user.name", 70%Q)]); reflexivity.
Defined.

(** The state a filter command leaves on a searcher loaded from a JSON
    document: every scalar of the value universe has a non-empty entry. *)
Lemma json_filter_state (d : json) (patterns : list string) :
  py_truthy d = true ->
  exists keys values index,
    fst (only patterns (fst (__init__ (json_file d)))) =
      mkSearcher d keys patterns (Some (_extract_json_keys d ""))
        (Some (_extract_json_values d)) (Some values) (Some index) /\
    forall s, s ∈ values -> exists k ks, index !! s = Some (k :: ks).
Proof.
  intros Hd. rewrite (init_json d Hd). cbn [fst].
  rewrite (only_result _ patterns (_extract_json_keys d "")
             (_extract_json_values d)) by reflexivity.
  destruct patterns as [|p ps]; cbn [fst data]; eexists _, _, _;
    (split; [reflexivity|]); intros s.
  - rewrite elem_of_sorted_set, <- (index_domain_is_values d "").
    intros [[|k ks] Hs]; [by apply index_entries_nonempty in Hs|by eexists _, _].
  - rewrite elem_of_sorted_elements, elem_of_dom, lookup_filter_index.
    destruct (_build_value_to_key_map d "" !! s) as [ks0|];
      [|by intros [? ?]].
    destruct (List.filter _ ks0); [by intros [? ?]|by eexists _, _].
Qed.

Lemma value_rows_of_indexed (str_score : Q -> string)
  (index : gmap string (list string)) (results : list (string * Q)) :
  (forall r, r ∈ results -> exists k ks, index !! fst r = Some (k :: ks)) ->
  flat_map (value_match_rows str_score index) results =
    map (fun r => [fst r; join ", " (default [] (index !! fst r));
                   str_score (snd r)]) results.
Proof.
  induction results as [|r rest IH]; intros Hall; simpl; [done|].
  rewrite IH by (intros r' Hr'; apply Hall; by right).
  destruct (Hall r) as (k & ks & Hr); [by left|].
  unfold value_match_rows. by rewrite Hr.
Qed.

(** X14.  On a searcher loaded from a JSON document, under any pattern
    list, a search by values returns only scalars that have keys in the
    index, and displaying a non-empty result prints one table with one row
    for each match, in rank order: the scalar, its keys joined by a comma
    and a space, and the score. *)
Theorem value_search_shows_every_match (similarity : string -> string -> Q)
  (str_score : Q -> string) (d : json) (patterns : list string)
  (query : string) (limit : nat) :
  py_truthy d = true ->
  let self := fst (only patterns (fst (__init__ (json_file d)))) in
  exists results index,
    snd (fuzzy_search similarity query limit "values" self) = Return results /\
    value_to_keys_map self = Some index /\
    (forall r, r ∈ results -> exists k ks, index !! fst r = Some (k :: ks)) /\
    (results <> [] ->
     display_matches str_score results "values" self =
       (self,
        Return
          [PrintTable (Nat.ltb 20 (length results))
             (mkTable ("Fuzzy Search Results (" ++ nat_str (length results)
                       ++ " total)")
                [("Value", "magenta"); ("Keys", "cyan"); ("Score", "green")]
                (map (fun r => [fst r;
                                join ", " (default [] (index !! fst r));
                                str_score (snd r)]) results))])).
Proof.
  intros Hd self.
  destruct (json_filter_state d patterns Hd) as (keys & values & index & Hself & Hidx).
  unfold self. rewrite Hself.
  set (st := mkSearcher d keys patterns _ _ _ _).
  exists (map (fun m => (choice_of m, score_of m))
            (process_extract similarity query values limit 60)), index.
  split; [reflexivity|]. split; [reflexivity|].
  assert (Hall : forall r,
             r ∈ map (fun m => (choice_of m, score_of m))
                   (process_extract similarity query values limit 60) ->
             exists k ks, index !! fst r = Some (k :: ks)).
  { intros r Hr. apply list_elem_of_fmap in Hr as (m & -> & Hm).
    apply process_extract_elem in Hm as (Hlook & _).
    apply Hidx. cbn [fst]. by eapply list_elem_of_lookup_2. }
  split; [exact Hall|].
  set (results := map _ _) in *. intros Hne.
  destruct results as [|r rest] eqn:Hres; [done|].
  unfold display_matches, bind, read, getattr, ret.
  change (String.eqb "values" "keys") with false. cbv iota beta.
  cbn [value_to_keys_map st data].
  rewrite (fold_display_values str_score "values" d index (r :: rest) eq_refl).
  cbn [fst snd app]. rewrite (value_rows_of_indexed str_score index _ Hall).
  reflexivity.
Qed.

Lemma value_search_shows_every_match_witness :
  exists results index,
    snd (fuzzy_search sample_similarity "Ali" 10 "values"
           (fst (only [] (fst (__init__ (json_file doc_user))))))
      = Return results /\
    value_to_keys_map (fst (only [] (fst (__init__ (json_file doc_user)))))
      = Some index /\
    (forall r, r ∈ results -> exists k ks, index !! fst r = Some (k :: ks)).
Proof.
  destruct (value_search_shows_every_match sample_similarity (fun _ => "100")
              doc_user [] "Ali" 10 eq_refl)
    as (results & index & H1 & H2 & H3 & _).
  exists results, index. exact (conj H1 (conj H2 H3)).
Defined.

(** ** Searching under a filter *)

(** X15.  Under a non-empty pattern list a search by keys only returns
    traversed key-paths in which some pattern occurs. *)
Theorem filtered_search_matches_pattern (similarity : string -> string -> Q)
  (self : FuzzyJSONSearcher) (patterns all_keys all_values : list string)
  (query : string) (limit : nat) (results : list (string * Q)) :
  _all_keys self = Some all_keys ->
  _all_values self = Some all_values ->
  patterns <> [] ->
  snd (fuzzy_search similarity query limit "keys" (fst (only patterns self)))
    = Return results ->
  forall m sc,
    (m, sc) ∈ results ->
    m ∈ all_keys /\
    exists p a b, p ∈ patterns /\ (m = a ++ p ++ b)%string.
Proof.
  intros Hak Hav Hne. rewrite (only_result self patterns _ _ Hak Hav).
  destruct patterns as [|p ps]; [done|]. cbn [fst].
  unfold fuzzy_search, bind, read, ret. cbn.
  intros [= <-] m sc Hin.
  apply list_elem_of_fmap in Hin as (mt & [= -> ->] & Hmt).
  apply process_extract_elem in Hmt as (Hlook & _).
  apply list_elem_of_lookup_2 in Hlook.
  apply elem_of_sorted_set, elem_of_filter_keys in Hlook
    as [Hk (q & Hq & Hin)].
  split; [done|]. apply py_in_substring in Hin as (a & b & Hab).
  by exists q, a, b.
Qed.

Lemma filtered_search_matches_pattern_witness :
  "user.tags" ∈ ["user"; "user.name"; "user.tags"] /\
  exists p a b, p ∈ ["tags"] /\ ("user.tags" = a ++ p ++ b)%string.
Proof.
  apply (filtered_search_matches_pattern sample_similarity
           (fst (__init__ (json_file doc_user))) ["tags"]
           ["user"; "user.name"; "user.tags"] ["Alice"] "a" 10
           [("user.tags", 70%Q)] eq_refl eq_refl ltac:(discriminate) eq_refl
           "user.tags" 70%Q).
  by left.
Defined.

(** ** Completers *)

(** A text has at most as many characters as bytes, and as many when every
    byte starts a character; so has every text that a command starts
    with. *)
Lemma py_len_le (s : string) : (py_len s <= String.length s)%nat.
Proof.
  induction s as [|c s IH]; [done|]. cbn [py_len String.length].
  destruct (starts_char c); lia.
Qed.

Lemma py_len_prefix (s t : string) :
  String.prefix s t = true ->
  py_len t = String.length t -> py_len s = String.length s.
Proof.
  revert t. induction s as [|a s IH]; intros t Hp Ht; [done|].
  destruct t as [|c t]; [discriminate Hp|].
  rewrite prefix_cons in Hp.
  destruct (Ascii.eqb_spec a c) as [->|]; [|discriminate Hp].
  cbn [py_len String.length] in *. pose proof (py_len_le t) as Hle.
  destruct (starts_char c); [|lia].
  rewrite (IH t Hp); lia.
Qed.

Lemma py_len_command (typed cmd : string) :
  cmd ∈ commands -> String.prefix typed cmd = true ->
  py_len typed = String.length typed.
Proof.
  intros Hcmd Hp. apply (py_len_prefix typed cmd Hp).
  apply list_elem_of_In in Hcmd.
  destruct Hcmd as [<-|[<-|[<-|[<-|[]]]]]; reflexivity.
Qed.

(** X16.  The completions offered for a typed text that starts with a
    slash are exactly the commands that start with the typed text, each
    replacing the typed text; they are produced without consulting the
    searcher.  Any other text gets no command and goes to the fuzzy
    completer. *)
Theorem command_completion_contract (similarity : string -> string -> Q)
  (completion_type typed : string) (self : FuzzyJSONSearcher) :
  (forall c,
      c ∈ command_completions typed <->
      String.prefix "/" typed = true /\
      text c ∈ commands /\
      String.prefix typed (text c) = true /\
      start_position c = (- Z.of_nat (String.length typed))%Z) /\
  (String.prefix "/" typed = true ->
   dynamic_completions similarity completion_type typed self =
     (self, Return (command_completions typed))) /\
  (String.prefix "/" typed = false ->
   command_completions typed = [] /\
   dynamic_completions similarity completion_type typed self =
     get_completions similarity completion_type typed self).
Proof.
  unfold dynamic_completions, command_completions.
  destruct (String.prefix "/" typed) eqn:Hslash.
  - split; [|split; [done|done]]. intros [cmd pos]. cbn [text start_position].
    rewrite list_elem_of_fmap. split.
    + intros (x & [= -> ->] & Hx).
      apply list_elem_of_In, filter_In in Hx as [Hx Hp].
      apply list_elem_of_In in Hx.
      by rewrite (py_len_command typed x Hx Hp).
    + intros (_ & Hcmd & Hp & ->). exists cmd.
      rewrite (py_len_command typed cmd Hcmd Hp). split; [done|].
      apply list_elem_of_In, filter_In. by rewrite <- list_elem_of_In.
  - split; [|split; [done|done]]. intros c. split; [|by intros [? _]].
    intros Hc. inversion Hc.
Qed.

Lemma command_completion_contract_witness :
  dynamic_completions sample_similarity "keys" "/o"
    (fst (__init__ (json_file doc_user))) =
    (fst (__init__ (json_file doc_user)),
     Return [mkCompletion "/open" (-2); mkCompletion "/only" (-2)]).
Proof.
  apply (proj1 (proj2 (command_completion_contract sample_similarity
                         "keys" "/o" (fst (__init__ (json_file doc_user)))))).
  reflexivity.
Defined.

(** ** CSV sources and the search by values *)

(** X17.  On a searcher just loaded from a CSV source, a search by values
    finds nothing, whatever the query and the limit: the candidates are the
    value universe, which is empty. *)
Theorem csv_value_search_finds_nothing (similarity : string -> string -> Q)
  (first : csv_record) (rest : list csv_record) (query : string)
  (limit : nat) :
  snd (__init__ (csv_file (first :: rest))) = Return tt ->
  let self := fst (__init__ (csv_file (first :: rest))) in
  fuzzy_search similarity query limit "values" self = (self, Return []).
Proof.
  intros Hfirst%init_csv_returns self. unfold self.
  rewrite (init_csv first rest Hfirst). cbn [fst].
  unfold fuzzy_search, bind, read, getattr, ret.
  change (String.eqb "values" "keys") with false. cbv iota beta.
  cbn [unique_values]. unfold process_extract. simpl. by destruct limit.
Qed.

Lemma csv_value_search_finds_nothing_witness :
  snd (fuzzy_search sample_similarity "Ali" 10 "values"
         (fst (__init__
                 (csv_file [mkRecord ("name", Some "Alice") [] None;
                            mkRecord ("name", None) [] None]))))
  = Return [].
Proof.
  rewrite (csv_value_search_finds_nothing sample_similarity
             (mkRecord ("name", Some "Alice") [] None)
             [mkRecord ("name", None) [] None] "Ali" 10 eq_refl).
  reflexivity.
Defined.

(** ** Building and splitting key-paths *)

Lemma segments_fold_full_key (names : list string) :
  forall prefix ps,
    segments prefix ps ->
    forallb plain_name names = true ->
    segments (fold_left full_key names prefix) (ps ++ names).
Proof.
  induction names as [|n names IH]; intros prefix ps Hseg Hplain; simpl.
  - by rewrite app_nil_r.
  - simpl in Hplain. apply andb_true_iff in Hplain as [Hn Hnames].
    replace (ps ++ n :: names) with ((ps ++ [n]) ++ names)
      by (by rewrite <- app_assoc).
    apply IH; [|done]. by apply segments_full_key.
Qed.

(** X18.  Building a key-path and splitting it are inverse on plain names:
    the key-path built, as the flattener builds it, from a non-empty list of
    names that are not empty and hold no dot splits at the dots into these
    names. *)
Theorem split_of_built_key_path (names : list string) :
  names <> [] ->
  forallb plain_name names = true ->
  split_dot (fold_left full_key names "") = names.
Proof.
  intros Hne Hplain.
  destruct (segments_fold_full_key names "" [] (or_introl (conj eq_refl eq_refl))
              Hplain) as [[_ Hnil]|[_ Hsplit]].
  - done.
  - exact Hsplit.
Qed.

Lemma split_of_built_key_path_witness :
  split_dot (fold_left full_key ["user"; "address"; "city"] "")
  = ["user"; "address"; "city"].
Proof.
  apply (split_of_built_key_path ["user"; "address"; "city"]);
    [done|reflexivity].
Defined.
